(** * Wordle solver: the feedback evaluator, codec, candidate filter and
    guess selector of [wordle.py], embedded as executable definitions.

    Python values are modelled as the code has them:
    - a [str] is the list of its Unicode code points ([N]);
    - feedback is a list of Python ints ([Z]): 2 green, 1 yellow, 0 gray;
    - [secret_chars] is a list whose slots hold a character or [None];
    - a [dict] is a [gmap], a [set] a [gset];
    - an exception is the [Raise] branch of [result]. *)

From Stdlib Require Import ZArith NArith String Ascii Lia.
From stdpp Require Import base decidable option list gmap.

(** ** Exceptions *)

Inductive exn : Type := IndexError | KeyError | ValueError.

Inductive result (A : Type) : Type :=
| Ok (a : A)
| Raise (e : exn).
Arguments Ok {A} a.
Arguments Raise {A} e.

#[global] Instance exn_eq_dec : EqDecision exn.
Proof. solve_decision. Defined.

#[global] Instance result_eq_dec {A : Type} `{EqDecision A} : EqDecision (result A).
Proof. solve_decision. Defined.

Definition bind {A B : Type} (c : result A) (k : A → result B) : result B :=
  match c with
  | Ok a => k a
  | Raise e => Raise e
  end.

Notation "x <- c ;; k" := (bind c (λ x, k))
  (at level 60, c at next level, right associativity).

(** ** Strings *)

(** A Python [str]: its code points, in order. *)
Definition str : Type := list N.

(** The code points of an ASCII literal. *)
Definition codes (s : string) : str := N_of_ascii <$> list_ascii_of_string s.

(** ** Built-ins used by the program *)

(** [l[i]] for [i >= 0]. *)
Definition getitem {A : Type} (l : list A) (i : nat) : result A :=
  match l !! i with
  | Some x => Ok x
  | None => Raise IndexError
  end.

(** [l[i] = x] for [i >= 0]. *)
Definition setitem {A : Type} (l : list A) (i : nat) (x : A) : result (list A) :=
  if decide (i < length l) then Ok (<[i:=x]> l) else Raise IndexError.

(** [x in l] on a list. *)
Definition contains {A : Type} `{EqDecision A} (x : A) (l : list A) : bool :=
  bool_decide (x ∈ l).

(** [l.index(x)]: the first position holding [x]. *)
Fixpoint list_index {A : Type} `{EqDecision A} (x : A) (l : list A) : result nat :=
  match l with
  | [] => Raise ValueError
  | y :: l' => if decide (y = x) then Ok 0 else j <- list_index x l' ;; Ok (S j)
  end.

(** [d[k]] on a dict. *)
Definition dict_get {K V : Type} `{Countable K} (d : gmap K V) (k : K) : result V :=
  match d !! k with
  | Some v => Ok v
  | None => Raise KeyError
  end.

(** [for x in xs: st = body(st, x)], stopping at the first exception. *)
Fixpoint for_each {S A : Type} (xs : list A) (body : S → A → result S) (st : S)
  : result S :=
  match xs with
  | [] => Ok st
  | x :: xs' => st' <- body st x ;; for_each xs' body st'
  end.

(** [range(n)]. *)
Definition range (n : nat) : list nat := seq 0 n.

(** ** evaluate_guess *)

(** The loop state of [evaluate_guess]: [feedback] and [secret_chars]. *)
Definition eval_state : Type := list Z * list (option N).

(** First pass: mark greens (2) and remove them from consideration. *)
Definition pass1_body (guess secret : str) (st : eval_state) (i : nat)
  : result eval_state :=
  let '(feedback, secret_chars) := st in
  gi <- getitem guess i ;;
  si <- getitem secret i ;;
  if decide (gi = si) then
    feedback <- setitem feedback i 2%Z ;;
    secret_chars <- setitem secret_chars i None ;;
    Ok (feedback, secret_chars)
  else Ok (feedback, secret_chars).

(** Second pass: mark yellows (1) if the letter exists elsewhere. *)
Definition pass2_body (guess : str) (st : eval_state) (i : nat)
  : result eval_state :=
  let '(feedback, secret_chars) := st in
  fi <- getitem feedback i ;;
  if decide (fi = 0%Z) then
    gi <- getitem guess i ;;
    if contains (Some gi) secret_chars then
      feedback <- setitem feedback i 1%Z ;;
      j <- list_index (Some gi) secret_chars ;;
      secret_chars <- setitem secret_chars j None ;;
      Ok (feedback, secret_chars)
    else Ok (feedback, secret_chars)
  else Ok (feedback, secret_chars).

Definition evaluate_guess (guess secret : str) : result (list Z) :=
  let feedback := replicate 5 0%Z in
  let secret_chars := Some <$> secret in
  st <- for_each (range 5) (pass1_body guess secret) (feedback, secret_chars) ;;
  st <- for_each (range 5) (pass2_body guess) st ;;
  Ok (fst st).

(** ** feedback_string_to_list *)

(** [c.isspace()]: the code points Python treats as whitespace. *)
Definition py_isspace (c : N) : bool :=
  ((9 <=? c) && (c <=? 13) || (28 <=? c) && (c <=? 32) || (c =? 133)
   || (c =? 160) || (c =? 5760) || (8192 <=? c) && (c <=? 8202)
   || (c =? 8232) || (c =? 8233) || (c =? 8239) || (c =? 8287)
   || (c =? 12288))%N.

(** [s.lstrip()]. *)
Fixpoint str_lstrip (s : str) : str :=
  match s with
  | [] => []
  | c :: s' => if py_isspace c then str_lstrip s' else s
  end.

(** [s.strip()]: whitespace removed at both ends. *)
Definition str_strip (s : str) : str :=
  reverse (str_lstrip (reverse (str_lstrip s))).

(** [c.lower()] on one code point. The case table is the one of the
    Basic Latin and Latin-1 blocks; any other code point is returned as it
    is (the squares printed by [format_feedback] have no case). *)
Definition py_lower_char (c : N) : N :=
  (if (65 <=? c) && (c <=? 90) then c + 32
   else if (192 <=? c) && (c <=? 222) && negb (c =? 215) then c + 32
   else c)%N.

(** [s.lower()]. *)
Definition str_lower (s : str) : str := py_lower_char <$> s.

(** The dict [{"g":2, "y":1, "b":0}]. *)
Definition FEEDBACK_OF_SYMBOL : gmap N Z :=
  <[103%N := 2%Z]> (<[121%N := 1%Z]> (<[98%N := 0%Z]> ∅)).

(** A list comprehension [[f(x) for x in l]] whose element may raise. *)
Fixpoint map_result {A B : Type} (f : A → result B) (l : list A)
  : result (list B) :=
  match l with
  | [] => Ok []
  | x :: l' => y <- f x ;; ys <- map_result f l' ;; Ok (y :: ys)
  end.

Definition feedback_string_to_list (fb_str : str) : result (list Z) :=
  let fb_str := str_lower (str_strip fb_str) in
  if negb (length fb_str =? 5)
     || existsb (λ ch, negb (contains ch (codes "gyb"))) fb_str
  then Raise ValueError
  else map_result (dict_get FEEDBACK_OF_SYMBOL) fb_str.

(** ** format_feedback *)

(** The dict of squares: 2 green (U+1F7E9), 1 yellow (U+1F7E8),
    0 white (U+2B1C). *)
Definition SYMBOLS : gmap Z str :=
  <[2%Z := [129001%N]]> (<[1%Z := [129000%N]]> (<[0%Z := [11036%N]]> ∅)).

Definition format_feedback (guess : str) (feedback : list Z) : result str :=
  squares <- map_result (dict_get SYMBOLS) feedback ;;
  Ok (concat squares ++ codes "   (" ++ guess ++ codes ")").

(** ** filter_candidates *)

Definition filter_body (last_guess : str) (last_fb : list Z)
    (out : list str) (w : str) : result (list str) :=
  fb <- evaluate_guess last_guess w ;;
  if decide (fb = last_fb) then Ok (out ++ [w]) else Ok out.

Definition filter_candidates (cands : list str) (last_guess : str)
    (last_fb : list Z) : result (list str) :=
  for_each cands (filter_body last_guess last_fb) [].

(** ** pick_smart *)

Definition VOWELS : gset N := list_to_set (codes "aeiou").

(** [sum(l)]. *)
Definition py_sum (l : list Z) : Z := foldl Z.add 0%Z l.

(** [max(l)]: raises on an empty sequence. *)
Definition py_max (l : list Z) : result Z :=
  match l with
  | [] => Raise ValueError
  | x :: l' => Ok (foldl Z.max x l')
  end.

(** [enumerate(l)], counting from [i]. *)
Fixpoint enumerate_from {A : Type} (i : nat) (l : list A) : list (nat * A) :=
  match l with
  | [] => []
  | x :: l' => (i, x) :: enumerate_from (S i) l'
  end.

Definition enumerate {A : Type} (l : list A) : list (nat * A) :=
  enumerate_from 0 l.

(** [sum(1 for ch in w if ch in VOWELS)]. *)
Definition vowel_count (w : str) : Z :=
  py_sum ((λ _, 1%Z) <$> filter (λ ch, ch ∈ VOWELS) w).

Definition vowel_counts (cands : list str) : list (Z * str) :=
  (λ w, (vowel_count w, w)) <$> cands.

(** [[w for count, w in vowel_counts if count == max_vowel]]. *)
Definition vowel_heavy_of (vcs : list (Z * str)) (max_vowel : Z) : list str :=
  snd <$> filter (λ p, fst p = max_vowel) vcs.

Definition ALPHABET : str := codes "abcdefghijklmnopqrstuvwxyz".

(** [dict.fromkeys(keys, v)]. *)
Definition dict_fromkeys (keys : list N) (v : Z) : gmap N Z :=
  list_to_map ((λ k, (k, v)) <$> keys).

(** [freq[i][ch] += 1]. *)
Definition count_letter (freq : list (gmap N Z)) (ich : nat * N)
  : result (list (gmap N Z)) :=
  let '(i, ch) := ich in
  d <- getitem freq i ;;
  n <- dict_get d ch ;;
  setitem freq i (<[ch := (n + 1)%Z]> d).

Definition count_word (freq : list (gmap N Z)) (w : str)
  : result (list (gmap N Z)) :=
  for_each (enumerate w) count_letter freq.

(** The position-frequency table among all candidates. *)
Definition build_freq (cands : list str) : result (list (gmap N Z)) :=
  for_each cands count_word (replicate 5 (dict_fromkeys ALPHABET 0%Z)).

(** One turn of the scoring loop on [(seen, score)]. *)
Definition score_letter (freq : list (gmap N Z)) (st : gset N * Z)
    (ich : nat * N) : result (gset N * Z) :=
  let '(seen, score) := st in
  let '(i, ch) := ich in
  if decide (ch ∈ seen) then Ok (seen, score)
  else
    d <- getitem freq i ;;
    n <- dict_get d ch ;;
    Ok ({[ch]} ∪ seen, (score + n)%Z).

Definition word_score (freq : list (gmap N Z)) (w : str) : result Z :=
  st <- for_each (enumerate w) (score_letter freq) (∅, 0%Z) ;;
  Ok (snd st).

(** One turn of the selection loop on [(best_score, best_word)]. *)
Definition best_body (freq : list (gmap N Z)) (st : Z * str) (w : str)
  : result (Z * str) :=
  let '(best_score, best_word) := st in
  score <- word_score freq w ;;
  if decide (score > best_score)%Z then Ok (score, w)
  else Ok (best_score, best_word).

(** The first steps of [pick_smart]: the vowel counts, their maximum, and the list
    [vowel_heavy] of the words that reach it. *)
Definition vowel_heavy (cands : list str) : result (list str) :=
  let vcs := vowel_counts cands in
  max_vowel <- py_max (fst <$> vcs) ;;
  Ok (vowel_heavy_of vcs max_vowel).

Definition pick_smart (cands : list str) : result str :=
  heavy <- vowel_heavy cands ;;
  if decide (length heavy = 1) then getitem heavy 0
  else
    freq <- build_freq cands ;;
    first <- getitem heavy 0 ;;
    best <- for_each heavy (best_body freq) ((-1)%Z, first) ;;
    Ok (snd best).

(** ** Counting, for the statements about [evaluate_guess] *)

Fixpoint count_if {A : Type} (p : A → bool) (l : list A) : nat :=
  match l with
  | [] => 0
  | x :: l' => (if p x then 1 else 0) + count_if p l'
  end.

(** Occurrences of the letter [L] in a word. *)
Definition occurrences (L : N) (w : str) : nat :=
  count_if (λ c, bool_decide (c = L)) w.

(** EXACT (2) or PRESENT (1). *)
Definition is_hit (f : Z) : bool := bool_decide (f = 2%Z ∨ f = 1%Z).

Definition credits (L : N) (cf : N * Z) : bool :=
  bool_decide (fst cf = L) && is_hit (snd cf).

(** Positions classified EXACT or PRESENT whose guess letter is [L]. *)
Definition credited (L : N) (guess : str) (fb : list Z) : nat :=
  count_if (credits L) (zip guess fb).

(** Slots of [secret_chars] still holding the letter [L]. *)
Definition available (L : N) (secret_chars : list (option N)) : nat :=
  count_if (λ o, bool_decide (o = Some L)) secret_chars.

(** After [i] turns of the first pass of [evaluate_guess]: the positions
    from [i] on are untouched, and each letter's credited positions plus its
    free slots make up its occurrences in the secret. *)
Definition pass1_inv (guess secret : str) (i : nat) (st : eval_state) : Prop :=
  length (fst st) = 5 ∧ length (snd st) = length secret ∧
  (∀ j, i ≤ j < 5 → fst st !! j = Some 0%Z) ∧
  (∀ j, i ≤ j → snd st !! j = Some <$> secret !! j) ∧
  ∀ L, credited L guess (fst st) + available L (snd st) = occurrences L secret.

(** Between the turns of the second pass. *)
Definition pass2_inv (guess secret : str) (st : eval_state) : Prop :=
  length (fst st) = 5 ∧
  ∀ L, credited L guess (fst st) + available L (snd st) = occurrences L secret.

(** ** The feedback code, for the round trip through [feedback_string_to_list] *)

(** The symbol that [feedback_string_to_list] reads as the class [f]: the
    table [FEEDBACK_OF_SYMBOL] read from right to left. The program has no
    function that writes it; [format_feedback] prints squares. *)
Definition symbol_of_class (f : Z) : N :=
  if decide (f = 2%Z) then 103%N else if decide (f = 1%Z) then 121%N else 98%N.

Definition feedback_code (c : list Z) : str := symbol_of_class <$> c.

(** A Classification: five values among ABSENT (0), PRESENT (1), EXACT (2). *)
Definition is_classification (c : list Z) : Prop :=
  length c = 5 ∧ Forall (λ f, f = 0%Z ∨ f = 1%Z ∨ f = 2%Z) c.

#[global] Instance is_classification_dec (c : list Z) : Decision (is_classification c).
Proof. unfold is_classification. apply _. Defined.

(** ** Words, and the selection heuristic as the specification words it *)

Definition is_lower (c : N) : Prop := (97 ≤ c ≤ 122)%N.

(** A Word: five lowercase letters. *)
Definition is_word (w : str) : Prop := length w = 5 ∧ Forall is_lower w.

#[global] Instance is_lower_dec (c : N) : Decision (is_lower c).
Proof. unfold is_lower. apply _. Defined.

#[global] Instance is_word_dec (w : str) : Decision (is_word w).
Proof. unfold is_word. apply _. Defined.

(** The words of the pool whose vowel count no word of the pool exceeds. *)
Definition max_vowel_words (pool : list str) : list str :=
  filter (λ w, Forall (λ w', (vowel_count w' ≤ vowel_count w)%Z) pool) pool.

(** Position-frequency table: how many words of the pool have the letter
    [c] at position [i]. *)
Definition table_spec (pool : list str) (i : nat) (c : N) : Z :=
  Z.of_nat (length (filter (λ w, w !! i = Some c) pool)).

(** What position [i] of [w] adds to its score: the table entry of its
    letter, unless that letter stands at an earlier position of [w]. *)
Definition position_credit (pool : list str) (w : str) (i : nat) : Z :=
  match w !! i with
  | Some c => if decide (c ∈ take i w) then 0%Z else table_spec pool i c
  | None => 0%Z
  end.

Definition sum_Z (l : list Z) : Z := foldr Z.add 0%Z l.

(** The score of a word: its credits over the 5 positions. *)
Definition score_spec (pool : list str) (w : str) : Z :=
  sum_Z (position_credit pool w <$> seq 0 5).

(** [freq[i][c]], when both lookups succeed. *)
Definition freq_val (freq : list (gmap N Z)) (i : nat) (c : N) : option Z :=
  freq !! i ≫= (λ d, d !! c).

(** [freq] is the position-frequency table of [pool]. *)
Definition represents (freq : list (gmap N Z)) (pool : list str) : Prop :=
  length freq = 5 ∧
  ∀ i c, i < 5 → is_lower c → freq_val freq i c = Some (table_spec pool i c).

(** The shape of the table: 5 dicts, each keyed by the 26 letters. *)
Definition table_shape (freq : list (gmap N Z)) : Prop :=
  length freq = 5 ∧ Forall (λ d : gmap N Z, dom d = list_to_set ALPHABET) freq.

(** * Vocabulary for the further properties *)

(** The guess letter is [L] and the position was left ABSENT. *)
Definition uncredited (L : N) (cf : N * Z) : bool :=
  bool_decide (fst cf = L) && bool_decide (snd cf = 0%Z).

(** Positions before [i] that the second pass left ABSENT although their
    guess letter is [L]. *)
Definition skipped (L : N) (i : nat) (guess : str) (fb : list Z) : nat :=
  count_if (uncredited L) (zip (take i guess) (take i fb)).

(** What the first pass has written after [i] turns: 2 where guess and
    secret agree, 0 elsewhere. *)
Definition pass1_marks (guess secret : list N) (i : nat) (st : eval_state) : Prop :=
  length (fst st) = 5 ∧
  ∀ j, j < 5 →
    fst st !! j = Some (if decide (j < i ∧ guess !! j = secret !! j) then 2%Z else 0%Z).

(** What stands in [feedback] during the second pass: classes only, 2
    exactly where guess and secret agree; a letter with a skipped position
    has no free slot left. *)
Definition pass2_marks (guess secret : list N) (i : nat) (st : eval_state) : Prop :=
  length (fst st) = 5 ∧
  (∀ j, j < 5 → ∃ f, fst st !! j = Some f ∧ (f = 0%Z ∨ f = 1%Z ∨ f = 2%Z) ∧
                     (f = 2%Z ↔ guess !! j = secret !! j)) ∧
  ∀ L, skipped L i guess (fst st) = 0 ∨ available L (snd st) = 0.

(** No whitespace at the start. *)
Definition no_lead_space (s : str) : Prop :=
  match s with
  | [] => True
  | c :: _ => py_isspace c = false
  end.

(** A word that [build_freq] can count: at most five characters, all of
    them lowercase letters. *)
Definition tabulable (w : str) : Prop := length w ≤ 5 ∧ Forall is_lower w.

#[global] Instance tabulable_dec (w : str) : Decision (tabulable w).
Proof. unfold tabulable. apply _. Defined.

(** * The rest of the program *)

(** ** load_words *)

(** The list comprehension of [load_words] over the lines of the file, as
    iterating over the open file yields them. Opening and reading the file
    are outside the model. *)
Definition load_words (lines : list str) : list str :=
  (λ line, str_lower (str_strip line))
    <$> filter (λ line, length (str_strip line) = 5) lines.

(** ** interactive_solve *)

(** How a session stands once the given input lines are used up. What the
    program prints is not modelled; each way out of the loop is a
    constructor carrying the values it announces. *)
Inductive session : Type :=
| NoCandidates                                 (* "No candidates left", return *)
| Exited                                       (* the user typed exit *)
| Solved (round_num : nat) (guess : str)       (* "Solved in round_num rounds" *)
| Uncaught (e : exn)                           (* an exception leaves the loop *)
| Waiting (candidates : list str) (round_num : nat).  (* blocked in [input()] *)

(** The [while True] loop of [interactive_solve], fed with the lines that
    [input()] returns. Only the [ValueError] of [feedback_string_to_list]
    is caught. *)
Fixpoint solve_loop (inputs : list str) (candidates : list str) (round_num : nat)
  : session :=
  if decide (candidates = []) then NoCandidates
  else
    match pick_smart candidates with
    | Raise e => Uncaught e
    | Ok guess =>
        match inputs with
        | [] => Waiting candidates round_num
        | line :: inputs' =>
            let fb_input := str_lower (str_strip line) in
            if decide (fb_input = codes "exit") then Exited
            else
              match feedback_string_to_list fb_input with
              | Raise ValueError => solve_loop inputs' candidates round_num
              | Raise e => Uncaught e
              | Ok feedback =>
                  match format_feedback guess feedback with
                  | Raise e => Uncaught e
                  | Ok _ =>
                      if decide (feedback = [2; 2; 2; 2; 2]%Z)
                      then Solved round_num guess
                      else
                        match filter_candidates candidates guess feedback with
                        | Raise e => Uncaught e
                        | Ok candidates' => solve_loop inputs' candidates' (S round_num)
                        end
                  end
              end
        end
    end.

(** [interactive_solve] on a word file and the lines the user types. *)
Definition interactive_solve (lines inputs : list str) : session :=
  solve_loop inputs (load_words lines) 1.


(** A line that makes the loop ask again: not exit, and not a feedback
    code. *)
Definition rejected (line : str) : Prop :=
  str_lower (str_strip line) ≠ codes "exit" ∧
  feedback_string_to_list (str_lower (str_strip line)) = Raise ValueError.

#[global] Instance rejected_dec (line : str) : Decision (rejected line).
Proof. unfold rejected. apply _. Defined.

(** * Proofs *)

(** ** The exception monad and the loops *)

Lemma getitem_Ok {A : Type} (l : list A) i x : l !! i = Some x → getitem l i = Ok x.
Proof. unfold getitem. by intros ->. Qed.

Lemma setitem_Ok {A : Type} (l : list A) i x :
  i < length l → setitem l i x = Ok (<[i:=x]> l).
Proof. unfold setitem. intros H. by rewrite decide_True. Qed.

(** Invariant rule for [for i in range(a, a + n)]. *)
Lemma for_each_seq_inv {S : Type} (I : nat → S → Prop) (body : S → nat → result S) a n st :
  I a st →
  (∀ i st, a ≤ i < a + n → I i st → ∃ st', body st i = Ok st' ∧ I (Datatypes.S i) st') →
  ∃ st', for_each (seq a n) body st = Ok st' ∧ I (a + n) st'.
Proof.
  revert a st. induction n as [|n IH]; intros a st H0 Hstep; simpl.
  - exists st. by rewrite Nat.add_0_r.
  - destruct (Hstep a st) as (st1 & E & H1); [lia | done |].
    rewrite E. simpl.
    destruct (IH (Datatypes.S a) st1) as (st2 & E2 & H2); [done | |].
    + intros i st' Hi. apply Hstep. lia.
    + exists st2. split; [done|]. by replace (a + Datatypes.S n) with (Datatypes.S a + n) by lia.
Qed.

(** ** Counting under an update in place *)

Lemma count_if_insert {A : Type} (p : A → bool) (l : list A) i x y :
  l !! i = Some x →
  count_if p (<[i:=y]> l) + (if p x then 1 else 0)
  = count_if p l + (if p y then 1 else 0).
Proof.
  revert i. induction l as [|z l IH]; intros [|i] Hi; simplify_eq/=.
  - lia.
  - specialize (IH _ Hi). lia.
Qed.

Lemma credited_insert L (g : str) (fb : list Z) i gi f f' :
  g !! i = Some gi → fb !! i = Some f →
  credited L g (<[i:=f']> fb) + (if credits L (gi, f) then 1 else 0)
  = credited L g fb + (if credits L (gi, f') then 1 else 0).
Proof.
  unfold credited. revert fb i.
  induction g as [|c g IH]; intros [|f0 fb] [|i] Hg Hf; simplify_eq/=.
  - lia.
  - specialize (IH _ _ Hg Hf). lia.
Qed.

Lemma credited_le_occurrences L (g : str) (fb : list Z) :
  credited L g fb ≤ occurrences L g.
Proof.
  unfold credited, occurrences, credits. revert fb.
  induction g as [|c g IH]; intros [|f fb]; simpl; try lia.
  specialize (IH fb). case_bool_decide; simpl; [|lia]. destruct (is_hit f); lia.
Qed.

Lemma credited_replicate_0 L (g : str) n : credited L g (replicate n 0%Z) = 0.
Proof.
  unfold credited. revert n. induction g as [|c g IH]; intros [|n]; simpl; try done.
  rewrite IH. unfold credits. simpl. by rewrite andb_false_r.
Qed.

Lemma available_fmap_Some L (s : str) : available L (Some <$> s) = occurrences L s.
Proof.
  unfold available, occurrences. induction s as [|c s IH]; [done|].
  rewrite fmap_cons. cbn [count_if]. rewrite IH. repeat case_bool_decide; simplify_eq; done.
Qed.

Lemma list_index_spec {A : Type} `{EqDecision A} (x : A) (l : list A) :
  x ∈ l → ∃ j, list_index x l = Ok j ∧ l !! j = Some x.
Proof.
  induction l as [|y l IH]; intros Hin; [by apply elem_of_nil in Hin|].
  simpl. case_decide as E.
  - exists 0. by subst.
  - apply elem_of_cons in Hin as [->|Hin]; [done|].
    destruct (IH Hin) as (j & -> & Hj). by exists (Datatypes.S j).
Qed.

(** ** evaluate_guess: the two passes keep every letter's budget *)

Section Evaluate.
Variables guess secret : str.
Hypothesis Hguess : 5 ≤ length guess.
Hypothesis Hsecret : 5 ≤ length secret.

Lemma pass1_init : pass1_inv guess secret 0 (replicate 5 0%Z, Some <$> secret).
Proof.
  unfold pass1_inv. cbn [fst snd]. split_and!.
  - done.
  - by rewrite length_fmap.
  - intros j Hj. apply (lookup_replicate_2 5). lia.
  - intros j _. by rewrite list_lookup_fmap.
  - intros L. by rewrite credited_replicate_0, available_fmap_Some.
Qed.

Lemma pass1_step i st :
  i < 5 → pass1_inv guess secret i st →
  ∃ st', pass1_body guess secret st i = Ok st' ∧ pass1_inv guess secret (S i) st'.
Proof.
  destruct st as [fb sc]. intros Hi (Hfb & Hsc & Hzero & Hslot & Hsum). cbn [fst snd] in *.
  destruct (lookup_lt_is_Some_2 guess i) as [gi Hgi]; [lia|].
  destruct (lookup_lt_is_Some_2 secret i) as [si Hsi]; [lia|].
  unfold pass1_body. rewrite (getitem_Ok _ _ _ Hgi), (getitem_Ok _ _ _ Hsi). simpl.
  case_decide as Heq.
  - subst si. rewrite !setitem_Ok by lia. simpl.
    eexists. split; [done|]. repeat split; simpl.
    + by rewrite length_insert.
    + by rewrite length_insert.
    + intros j Hj. rewrite list_lookup_insert_ne by lia. apply Hzero. lia.
    + intros j Hj. rewrite list_lookup_insert_ne by lia. apply Hslot. lia.
    + intros L. specialize (Hsum L).
      pose proof (credited_insert L guess fb i gi 0%Z 2%Z Hgi) as Hc.
      rewrite Hzero in Hc by lia. specialize (Hc eq_refl).
      assert (sc !! i = Some (Some gi)) as Hsci.
      { rewrite Hslot by lia. exact (f_equal (fmap Some) Hsi). }
      pose proof (count_if_insert (λ o, bool_decide (o = Some L)) sc i _ None Hsci) as Ha.
      unfold available. unfold credits, is_hit in Hc. simpl in Hc, Ha.
      unfold available in Hsum.
      repeat case_bool_decide; simplify_eq; simpl in *; try lia; naive_solver.
  - eexists. split; [done|]. repeat split; simpl; try done.
    + intros j Hj. apply Hzero. lia.
    + intros j Hj. apply Hslot. lia.
Qed.

Lemma pass2_step i st :
  i < 5 → pass2_inv guess secret st →
  ∃ st', pass2_body guess st i = Ok st' ∧ pass2_inv guess secret st'.
Proof.
  destruct st as [fb sc]. intros Hi (Hfb & Hsum). cbn [fst snd] in *.
  destruct (lookup_lt_is_Some_2 fb i) as [fi Hfi]; [lia|].
  destruct (lookup_lt_is_Some_2 guess i) as [gi Hgi]; [lia|].
  unfold pass2_body. rewrite (getitem_Ok _ _ _ Hfi). simpl.
  case_decide as Hz; [|by eexists].
  subst fi. rewrite (getitem_Ok _ _ _ Hgi). simpl.
  unfold contains. case_bool_decide as Hin; [|by eexists].
  destruct (list_index_spec _ _ Hin) as (j & Hj & Hscj).
  rewrite setitem_Ok by lia. simpl. rewrite Hj. simpl.
  rewrite setitem_Ok by (by eapply lookup_lt_Some). simpl.
  eexists. split; [done|]. split; simpl; [by rewrite length_insert|].
  intros L. specialize (Hsum L).
  pose proof (credited_insert L guess fb i gi 0%Z 1%Z Hgi Hfi) as Hc.
  pose proof (count_if_insert (λ o, bool_decide (o = Some L)) sc j _ None Hscj) as Ha.
  unfold available in *. unfold credits, is_hit in Hc. simpl in Hc, Ha.
  repeat case_bool_decide; simplify_eq; simpl in *; try lia; naive_solver.
Qed.

(** On words of at least five letters the evaluator returns, and the
    feedback it returns respects every letter's budget. *)
Lemma evaluate_guess_budget :
  ∃ fb, evaluate_guess guess secret = Ok fb ∧ length fb = 5 ∧
        ∀ L, credited L guess fb ≤ occurrences L secret.
Proof.
  unfold evaluate_guess, range.
  destruct (for_each_seq_inv (pass1_inv guess secret) (pass1_body guess secret) 0 5
              (replicate 5 0%Z, Some <$> secret)) as (st1 & -> & H1).
  { apply pass1_init. }
  { intros i st Hi. apply pass1_step. lia. }
  cbn [bind].
  destruct (for_each_seq_inv (λ _, pass2_inv guess secret) (pass2_body guess) 0 5 st1)
    as (st2 & -> & H2 & Hsum).
  { destruct H1 as (? & ? & ? & ? & ?). by split. }
  { intros i st Hi. apply pass2_step. lia. }
  simpl. exists (fst st2). repeat split; [done|].
  intros L. specialize (Hsum L). lia.
Qed.
End Evaluate.

(** C1: for length-5 words [g] and [s] and every letter [L], the positions
    of [evaluate_guess g s] classified EXACT or PRESENT whose guess letter is
    [L] are at most the occurrences of [L] in [s], and at most the
    occurrences of [L] in [g]. *)
Theorem evaluate_guess_letter_budget (g s : str) (L : N) :
  length g = 5 → length s = 5 →
  ∃ fb, evaluate_guess g s = Ok fb ∧
        credited L g fb ≤ occurrences L s ∧ credited L g fb ≤ occurrences L g.
Proof.
  intros Hg Hs.
  destruct (evaluate_guess_budget g s) as (fb & Hfb & _ & Hb); [lia | lia |].
  exists fb. split_and!; [done | apply Hb | apply credited_le_occurrences].
Qed.

Lemma evaluate_guess_letter_budget_witness :
  ∃ fb, evaluate_guess (codes "speed") (codes "erase") = Ok fb ∧
        credited 101 (codes "speed") fb ≤ occurrences 101 (codes "erase") ∧
        credited 101 (codes "speed") fb ≤ occurrences 101 (codes "speed").
Proof. apply (evaluate_guess_letter_budget (codes "speed") (codes "erase") 101); reflexivity. Defined.

(** C5, as the code has it: the guess "speed" against the secret "erase"
    is classified [PRESENT, ABSENT, PRESENT, PRESENT, ABSENT]; the secret has
    two e's, so both e's of the guess are credited. *)
Theorem evaluate_guess_speed_erase :
  evaluate_guess (codes "speed") (codes "erase") = Ok [1; 0; 1; 1; 0]%Z.
Proof. vm_compute. reflexivity. Qed.

(** C5 as stated fails: the fourth position is PRESENT, not ABSENT. *)
Lemma evaluate_guess_speed_erase_not_spec :
  evaluate_guess (codes "speed") (codes "erase") ≠ Ok [1; 0; 1; 0; 0]%Z.
Proof. rewrite evaluate_guess_speed_erase. discriminate. Qed.

(** C8: a length-5 word evaluated against itself is EXACT everywhere. *)
Theorem evaluate_guess_self (w : str) :
  length w = 5 → evaluate_guess w w = Ok [2; 2; 2; 2; 2]%Z.
Proof.
  intros Hw. destruct w as [|a [|b [|c [|d [|e [|]]]]]]; simplify_eq/=.
  unfold evaluate_guess, range, pass1_body, setitem.
  do 6 (cbn -[decide]; rewrite ?decide_True by (done || (simpl; lia))).
  reflexivity.
Qed.

Lemma evaluate_guess_self_witness :
  evaluate_guess (codes "crane") (codes "crane") = Ok [2; 2; 2; 2; 2]%Z.
Proof. apply (evaluate_guess_self (codes "crane")). reflexivity. Defined.

(** ** filter_candidates *)

Lemma filter_body_acc (g : str) (fb : list Z) (cands out : list str) :
  5 ≤ length g → Forall (λ w, 5 ≤ length w) cands →
  for_each cands (filter_body g fb) out
  = Ok (out ++ filter (λ w, evaluate_guess g w = Ok fb) cands).
Proof.
  intros Hg Hc. revert out.
  induction Hc as [|w cands Hw _ IH]; intros out; simpl.
  - by rewrite app_nil_r.
  - unfold filter_body at 1.
    destruct (evaluate_guess_budget g w Hg Hw) as (fb' & E & _). rewrite E. simpl.
    rewrite filter_cons. case_decide as Hfb.
    + subst fb'. rewrite decide_True by done. simpl. rewrite IH.
      by rewrite <- app_assoc.
    + rewrite decide_False by congruence. simpl. apply IH.
Qed.

Lemma filter_candidates_filter (g : str) (fb : list Z) (cands : list str) :
  5 ≤ length g → Forall (λ w, 5 ≤ length w) cands →
  filter_candidates cands g fb
  = Ok (filter (λ w, evaluate_guess g w = Ok fb) cands).
Proof. intros Hg Hc. unfold filter_candidates. by rewrite filter_body_acc. Qed.

Lemma Forall_length_5 (cands : list str) :
  Forall (λ w, length w = 5) cands → Forall (λ w, 5 ≤ length w) cands.
Proof. intros Hc. eapply Forall_impl; [done|]. by intros w ->. Qed.

Lemma filter_twice {A : Type} (P : A → Prop) `{∀ x, Decision (P x)} (l : list A) :
  filter P (filter P l) = filter P l.
Proof.
  induction l as [|x l IH]; [done|].
  rewrite filter_cons. case_decide as HP; [|done].
  rewrite filter_cons, decide_True by done. by rewrite IH.
Qed.

(** C2: on a pool of length-5 words, with a length-5 guess and a length-5
    feedback, [filter_candidates] keeps exactly the words [w] for which
    [evaluate_guess guess w] is the observed feedback, in the order of the
    pool. *)
Theorem filter_candidates_spec (cands : list str) (g : str) (fb : list Z) :
  Forall (λ w, length w = 5) cands → length g = 5 → length fb = 5 →
  ∃ out, filter_candidates cands g fb = Ok out ∧
         out = filter (λ w, evaluate_guess g w = Ok fb) cands ∧
         (∀ w, w ∈ out ↔ w ∈ cands ∧ evaluate_guess g w = Ok fb) ∧
         out `sublist_of` cands.
Proof.
  intros Hc Hg _. eexists. split.
  { apply filter_candidates_filter; [lia | by apply Forall_length_5]. }
  split_and!; [done | |apply sublist_filter].
  intros w. rewrite list_elem_of_filter. tauto.
Qed.

Lemma filter_candidates_spec_witness :
  ∃ out, filter_candidates [codes "crane"; codes "slate"; codes "stale"]
           (codes "least") [1; 1; 2; 1; 1]%Z = Ok out ∧
         out = filter (λ w, evaluate_guess (codes "least") w = Ok [1; 1; 2; 1; 1]%Z)
                 [codes "crane"; codes "slate"; codes "stale"] ∧
         (∀ w, w ∈ out ↔ w ∈ [codes "crane"; codes "slate"; codes "stale"] ∧
                evaluate_guess (codes "least") w = Ok [1; 1; 2; 1; 1]%Z) ∧
         out `sublist_of` [codes "crane"; codes "slate"; codes "stale"].
Proof.
  apply (filter_candidates_spec [codes "crane"; codes "slate"; codes "stale"]
           (codes "least") [1; 1; 2; 1; 1]%Z); [|reflexivity|reflexivity].
  repeat constructor.
Defined.

(** C7: filtering an already filtered pool again, with the same guess and
    feedback, returns it unchanged. *)
Theorem filter_candidates_idempotent (cands : list str) (g : str) (fb : list Z) :
  Forall (λ w, length w = 5) cands → length g = 5 →
  ∃ out, filter_candidates cands g fb = Ok out ∧
         filter_candidates out g fb = Ok out.
Proof.
  intros Hc Hg. apply Forall_length_5 in Hc.
  eexists. split; [apply filter_candidates_filter; [lia | done] |].
  rewrite filter_candidates_filter; [by rewrite filter_twice | lia |].
  apply Forall_forall. intros w [_ Hw]%list_elem_of_filter.
  by apply (proj1 (Forall_forall _ _) Hc).
Qed.

Lemma filter_candidates_idempotent_witness :
  ∃ out, filter_candidates [codes "crane"; codes "slate"; codes "stale"]
           (codes "least") [1; 1; 2; 1; 1]%Z = Ok out ∧
         filter_candidates out (codes "least") [1; 1; 2; 1; 1]%Z = Ok out.
Proof.
  apply (filter_candidates_idempotent [codes "crane"; codes "slate"; codes "stale"]
           (codes "least") [1; 1; 2; 1; 1]%Z); [|reflexivity].
  repeat constructor.
Defined.

(** ** feedback_string_to_list *)

Lemma symbol_lookup (ch : N) :
  ch ∈ codes "gyb" → ∃ f, FEEDBACK_OF_SYMBOL !! ch = Some f.
Proof.
  intros Hin. change (codes "gyb") with [103%N; 121%N; 98%N] in Hin.
  rewrite !elem_of_cons in Hin. destruct Hin as [->|[->|[->|Hin]]].
  - by exists 2%Z.
  - by exists 1%Z.
  - by exists 0%Z.
  - by apply elem_of_nil in Hin.
Qed.

Lemma map_result_symbols (s : str) :
  (∀ ch, ch ∈ s → ch ∈ codes "gyb") →
  ∃ c, map_result (dict_get FEEDBACK_OF_SYMBOL) s = Ok c ∧ length c = length s ∧
       ∀ i ch, s !! i = Some ch → FEEDBACK_OF_SYMBOL !! ch = c !! i.
Proof.
  induction s as [|ch s IH]; intros Hs.
  - exists []. by split_and!.
  - destruct IH as (c & Hc & Hlen & Hpos).
    { intros ch' Hin. apply Hs. by right. }
    destruct (symbol_lookup ch) as [f Hf]; [apply Hs; by left|].
    exists (f :: c). cbn [map_result]. unfold dict_get at 1. rewrite Hf, Hc.
    split_and!; [done | simpl; lia |].
    intros [|i] ch' Hi; simplify_eq/=; [done | by apply Hpos].
Qed.

Lemma symbol_check (s : str) :
  existsb (λ ch, negb (contains ch (codes "gyb"))) s = true
  ↔ ∃ ch, ch ∈ s ∧ ch ∉ codes "gyb".
Proof.
  rewrite existsb_exists. unfold contains. split.
  - intros (ch & Hin & Hne). exists ch. split; [by apply list_elem_of_In|].
    apply negb_true_iff in Hne. by apply bool_decide_eq_false in Hne.
  - intros (ch & Hin & Hne). exists ch. split; [by apply list_elem_of_In|].
    apply negb_true_iff. by apply bool_decide_eq_false.
Qed.

(** The two outcomes of [feedback_string_to_list]. *)
Lemma feedback_string_to_list_cases (raw : str) :
  let s := str_lower (str_strip raw) in
  ((length s ≠ 5 ∨ ∃ ch, ch ∈ s ∧ ch ∉ codes "gyb") ∧
   feedback_string_to_list raw = Raise ValueError) ∨
  (length s = 5 ∧ (∀ ch, ch ∈ s → ch ∈ codes "gyb") ∧
   ∃ c, feedback_string_to_list raw = Ok c ∧ length c = 5 ∧
        ∀ i ch, s !! i = Some ch → FEEDBACK_OF_SYMBOL !! ch = c !! i).
Proof.
  intros s. unfold feedback_string_to_list. fold s.
  destruct (Nat.eqb_spec (length s) 5) as [Hlen|Hlen]; simpl; [|left; by split; [left|]].
  destruct (existsb _ s) eqn:Hex.
  { left. split; [|done]. right. by apply symbol_check. }
  right.
  assert (∀ ch, ch ∈ s → ch ∈ codes "gyb") as Hall.
  { intros ch Hin. destruct (decide (ch ∈ codes "gyb")); [done|].
    assert (existsb (λ ch, negb (contains ch (codes "gyb"))) s = true)
      as Hex' by (apply symbol_check; eauto).
    congruence. }
  destruct (map_result_symbols s Hall) as (c & Hc & Hl & Hpos).
  split_and!; [done | done |]. exists c. split_and!; [done | lia | done].
Qed.

(** C4: after [strip] and [lower], [feedback_string_to_list] raises exactly
    when the normalized input is not 5 characters long or has a character
    outside g, y, b; otherwise it returns all five classes, position by
    position. It raises on "ggyb", "ggybx" and the empty string. *)
Theorem feedback_string_to_list_spec (raw : str) :
  let s := str_lower (str_strip raw) in
  (feedback_string_to_list raw = Raise ValueError
   ↔ length s ≠ 5 ∨ ∃ ch, ch ∈ s ∧ ch ∉ codes "gyb") ∧
  (¬ (length s ≠ 5 ∨ ∃ ch, ch ∈ s ∧ ch ∉ codes "gyb") →
   ∃ c, feedback_string_to_list raw = Ok c ∧ length c = 5 ∧
        ∀ i ch, s !! i = Some ch → FEEDBACK_OF_SYMBOL !! ch = c !! i) ∧
  feedback_string_to_list (codes "ggyb") = Raise ValueError ∧
  feedback_string_to_list (codes "ggybx") = Raise ValueError ∧
  feedback_string_to_list (codes "") = Raise ValueError.
Proof.
  cbv zeta. pose proof (feedback_string_to_list_cases raw) as Hcases.
  cbv zeta in Hcases. split_and!; try (vm_compute; reflexivity).
  - destruct Hcases as [[Hbad ->]|(Hlen & Hall & c & -> & _)]; [done|].
    split; [done|]. intros [?|(ch & Hin & Hne)]; [done|]. destruct Hne. by apply Hall.
  - intros Hgood. destruct Hcases as [[Hbad _]|(_ & _ & Hc)]; [by destruct Hgood | done].
Qed.

Lemma feedback_string_to_list_spec_witness :
  ∃ c, feedback_string_to_list (codes " GyBbg ") = Ok c ∧ length c = 5 ∧
       ∀ i ch, str_lower (str_strip (codes " GyBbg ")) !! i = Some ch →
               FEEDBACK_OF_SYMBOL !! ch = c !! i.
Proof.
  apply (proj1 (proj2 (feedback_string_to_list_spec (codes " GyBbg ")))).
  intros [Hlen|(ch & Hin & Hne)].
  - apply Hlen. reflexivity.
  - apply Hne. change (ch ∈ [103; 121; 98; 98; 103]%N) in Hin.
    change (codes "gyb") with [103%N; 121%N; 98%N].
    rewrite !elem_of_cons in Hin. rewrite !elem_of_cons. tauto.
Defined.

(** C6, as the code has it: the five-letter code that writes EXACT as g,
    PRESENT as y and ABSENT as b is read back by [feedback_string_to_list]
    as the classification it was written from. *)
Theorem feedback_code_round_trip (c : list Z) :
  is_classification c → feedback_string_to_list (feedback_code c) = Ok c.
Proof.
  intros [Hlen Hc].
  destruct c as [|f1 [|f2 [|f3 [|f4 [|f5 [|]]]]]]; simplify_eq/=.
  repeat match goal with H : Forall _ (_ :: _) |- _ => inversion_clear H end.
  repeat match goal with H : _ ∨ _ |- _ => destruct H as [->|H] end; subst;
    vm_compute; reflexivity.
Qed.

Lemma feedback_code_round_trip_witness :
  feedback_string_to_list (feedback_code [2; 1; 0; 0; 2]%Z) = Ok [2; 1; 0; 0; 2]%Z.
Proof.
  apply (feedback_code_round_trip [2; 1; 0; 0; 2]%Z).
  apply (bool_decide_unpack _). vm_compute. exact I.
Defined.

(** C6 as stated fails on the formatter of the program: what
    [format_feedback] writes for a classification is rejected by
    [feedback_string_to_list]. *)
Lemma format_feedback_not_decodable :
  ∃ code, format_feedback (codes "crane") [2; 1; 0; 0; 2]%Z = Ok code ∧
          feedback_string_to_list code = Raise ValueError.
Proof. eexists. split; vm_compute; reflexivity. Qed.

Lemma str_lstrip_keeps (s : str) (c : N) :
  c ∈ s → py_isspace c = false → c ∈ str_lstrip s.
Proof.
  intros Hin Hc. induction s as [|x s IH]; [done|]. simpl.
  destruct (py_isspace x) eqn:Hx; [|done].
  apply elem_of_cons in Hin as [->|Hin]; [congruence | by apply IH].
Qed.

Lemma str_strip_keeps (s : str) (c : N) :
  c ∈ s → py_isspace c = false → c ∈ str_strip s.
Proof.
  intros Hin Hc. unfold str_strip.
  apply elem_of_reverse, str_lstrip_keeps; [|done].
  by apply elem_of_reverse, str_lstrip_keeps.
Qed.

(** X8: whatever the guess and the feedback, the line that [format_feedback]
    writes holds an opening bracket, so [feedback_string_to_list] rejects it. *)
Lemma format_feedback_never_decodes (g : str) (c : list Z) (code : str) :
  format_feedback g c = Ok code → feedback_string_to_list code = Raise ValueError.
Proof.
  unfold format_feedback. destruct (map_result _ c) as [squares|]; [|done].
  cbn [bind]. intros [= <-].
  set (code := concat squares ++ codes "   (" ++ g ++ codes ")").
  assert (40%N ∈ str_lower (str_strip code)) as Hin.
  { apply (list_elem_of_fmap_2 py_lower_char _ 40%N), str_strip_keeps; [|done].
    unfold code. change (codes "   (") with [32%N; 32%N; 32%N; 40%N]. set_solver. }
  pose proof (feedback_string_to_list_cases code) as Hcases. cbv zeta in Hcases.
  destruct Hcases as [[_ ?]|(_ & Hall & _)]; [done|].
  apply Hall in Hin. change (codes "gyb") with [103%N; 121%N; 98%N] in Hin.
  rewrite !elem_of_cons in Hin. destruct Hin as [?|[?|[?|Hin]]]; try done.
  by apply elem_of_nil in Hin.
Qed.

Lemma format_feedback_never_decodes_witness :
  feedback_string_to_list
    ([129001; 129000; 11036; 11036; 129001]%N ++ codes "   (crane)")
  = Raise ValueError.
Proof.
  apply (format_feedback_never_decodes (codes "crane") [2; 1; 0; 0; 2]%Z).
  vm_compute. reflexivity.
Defined.

(** ** pick_smart: the position-frequency table *)

Lemma ALPHABET_lower (c : N) : is_lower c → c ∈ ALPHABET.
Proof.
  intros [Hlo Hhi].
  change ALPHABET with (N.of_nat <$> seq 97 26).
  apply list_elem_of_fmap. exists (N.to_nat c). split; [lia|].
  apply elem_of_seq. lia.
Qed.

Lemma dict_fromkeys_lookup (keys : list N) (v : Z) (k : N) :
  k ∈ keys → dict_fromkeys keys v !! k = Some v.
Proof.
  unfold dict_fromkeys. induction keys as [|k' keys IH]; intros Hin.
  - by apply elem_of_nil in Hin.
  - rewrite fmap_cons. cbn [list_to_map foldr]. 
    destruct (decide (k' = k)) as [->|Hne].
    + apply lookup_insert_eq.
    + rewrite lookup_insert_ne by done. apply IH.
      apply elem_of_cons in Hin as [->|Hin]; done.
Qed.

Lemma represents_init : represents (replicate 5 (dict_fromkeys ALPHABET 0%Z)) [].
Proof.
  split; [done|]. intros i c Hi Hc. unfold freq_val.
  rewrite lookup_replicate_2 by done. simpl.
  by rewrite dict_fromkeys_lookup by by apply ALPHABET_lower.
Qed.

Lemma freq_val_insert (freq : list (gmap N Z)) k d ch v i c :
  freq !! k = Some d →
  freq_val (<[k := <[ch := v]> d]> freq) i c
  = if decide (i = k ∧ c = ch) then Some v else freq_val freq i c.
Proof.
  intros Hk. unfold freq_val.
  destruct (decide (i = k)) as [->|Hik].
  - rewrite list_lookup_insert_eq by by eapply lookup_lt_Some.
    rewrite Hk. simpl. destruct (decide (c = ch)) as [->|Hc].
    + rewrite decide_True by done. apply lookup_insert_eq.
    + rewrite decide_False by tauto. by apply lookup_insert_ne.
  - rewrite list_lookup_insert_ne by done. by rewrite decide_False by tauto.
Qed.

(** The letters of a word from position [k] on, counted into the table. *)
Lemma count_letters_spec (w : str) : ∀ (k : nat) (freq : list (gmap N Z)),
  length freq = 5 → k + length w ≤ 5 → Forall is_lower w →
  (∀ i c, i < 5 → is_lower c → is_Some (freq_val freq i c)) →
  ∃ freq', for_each (enumerate_from k w) count_letter freq = Ok freq' ∧
    length freq' = 5 ∧
    ∀ i c, i < 5 → is_lower c →
      freq_val freq' i c
      = (λ v, (v + if decide (k ≤ i ∧ w !! (i - k) = Some c)%nat then 1 else 0)%Z)
          <$> freq_val freq i c.
Proof.
  induction w as [|ch w IH]; intros k freq Hlen Hk Hw Hdef.
  - exists freq. split_and!; [done | done |]. intros i c Hi Hc.
    destruct (Hdef i c Hi Hc) as [v ->]. simpl.
    rewrite decide_False by (by intros [_ ?]).
    by rewrite Z.add_0_r.
  - simpl in Hk. apply Forall_cons in Hw as [Hch Hw].
    destruct (lookup_lt_is_Some_2 freq k) as [d Hd]; [lia|].
    destruct (Hdef k ch) as [n Hn]; [lia | done |].
    unfold freq_val in Hn. rewrite Hd in Hn. simpl in Hn.
    cbn [enumerate_from for_each]. unfold count_letter at 1.
    rewrite (getitem_Ok _ _ _ Hd). cbn [bind].
    unfold dict_get. rewrite Hn. cbn [bind]. rewrite setitem_Ok by lia. cbn [bind].
    destruct (IH (S k) (<[k := <[ch := (n + 1)%Z]> d]> freq)) as (freq' & E & Hlen' & Hval).
    { by rewrite length_insert. }
    { lia. }
    { done. }
    { intros i c Hi Hc. rewrite freq_val_insert by done. case_decide; [done | by apply Hdef]. }
    exists freq'. split_and!; [done | done |].
    intros i c Hi Hc. rewrite Hval by done. rewrite freq_val_insert by done.
    destruct (Hdef i c Hi Hc) as [v Hv]. rewrite Hv.
    destruct (decide (i = k ∧ c = ch)) as [[-> ->]|Hne]; simpl.
    + assert (v = n) as -> by (unfold freq_val in Hv; rewrite Hd in Hv; simpl in Hv; congruence).
      rewrite decide_False by lia.
      rewrite decide_True by (rewrite Nat.sub_diag; done).
      f_equal. lia.
    + f_equal. f_equal.
      destruct (decide (i = k)) as [->|Hik].
      * rewrite decide_False by lia. rewrite Nat.sub_diag. simpl.
        rewrite decide_False; [done|]. intros [_ ?]. simplify_eq. tauto.
      * destruct (decide (k ≤ i)) as [Hle|Hgt].
        -- replace (i - k) with (S (i - S k)) by lia. simpl.
           assert (S k ≤ i) by lia.
           repeat case_decide; try done; exfalso; tauto.
        -- rewrite !decide_False by lia. done.
Qed.

Lemma table_spec_snoc (pool : list str) (w : str) i c :
  table_spec (pool ++ [w]) i c
  = (table_spec pool i c + if decide (w !! i = Some c) then 1 else 0)%Z.
Proof.
  unfold table_spec. rewrite filter_app, length_app, filter_cons, filter_nil.
  case_decide; simpl; lia.
Qed.

Lemma count_word_spec (freq : list (gmap N Z)) (pool : list str) (w : str) :
  represents freq pool → is_word w →
  ∃ freq', count_word freq w = Ok freq' ∧ represents freq' (pool ++ [w]).
Proof.
  intros [Hlen Hval] [Hw Hlow].
  destruct (count_letters_spec w 0 freq) as (freq' & E & Hlen' & Hval'); try done.
  { lia. }
  { intros i c Hi Hc. rewrite Hval by done. eauto. }
  exists freq'. split; [done|]. split; [done|].
  intros i c Hi Hc. rewrite Hval', Hval by done. simpl.
  rewrite table_spec_snoc, Nat.sub_0_r. f_equal. f_equal.
  assert (0 ≤ i) by lia.
  repeat case_decide; try done; exfalso; tauto.
Qed.

Lemma count_words_spec (ws : list str) : ∀ (freq : list (gmap N Z)) (pool : list str),
  represents freq pool → Forall is_word ws →
  ∃ freq', for_each ws count_word freq = Ok freq' ∧ represents freq' (pool ++ ws).
Proof.
  induction ws as [|w ws IH]; intros freq pool Hrep Hws.
  - exists freq. by rewrite app_nil_r.
  - apply Forall_cons in Hws as [Hw Hws].
    destruct (count_word_spec freq pool w Hrep Hw) as (freq1 & E1 & Hrep1).
    destruct (IH freq1 (pool ++ [w]) Hrep1 Hws) as (freq2 & E2 & Hrep2).
    exists freq2. cbn [for_each]. rewrite E1. cbn [bind].
    split; [done|]. by rewrite <- app_assoc in Hrep2.
Qed.

Lemma build_freq_spec (cands : list str) :
  Forall is_word cands → ∃ freq, build_freq cands = Ok freq ∧ represents freq cands.
Proof.
  intros Hc. apply (count_words_spec cands _ [] represents_init Hc).
Qed.

(** ** pick_smart: the score of a word *)

Lemma freq_val_get (freq : list (gmap N Z)) i c v :
  freq_val freq i c = Some v → ∃ d, getitem freq i = Ok d ∧ dict_get d c = Ok v.
Proof.
  unfold freq_val, getitem, dict_get. destruct (freq !! i) as [d|]; [|done].
  simpl. intros Hd. exists d. by rewrite Hd.
Qed.

Lemma table_spec_nonneg (pool : list str) i c : (0 ≤ table_spec pool i c)%Z.
Proof. unfold table_spec. lia. Qed.

Lemma position_credit_nonneg (pool : list str) (w : str) i :
  (0 ≤ position_credit pool w i)%Z.
Proof.
  unfold position_credit. destruct (w !! i); [|done].
  case_decide; [done | apply table_spec_nonneg].
Qed.

Lemma sum_Z_nonneg (l : list Z) : Forall (λ z, (0 ≤ z)%Z) l → (0 ≤ sum_Z l)%Z.
Proof. induction 1 as [|z l Hz _ IH]; simpl; lia. Qed.

Lemma score_spec_nonneg (pool : list str) (w : str) : (0 ≤ score_spec pool w)%Z.
Proof.
  apply sum_Z_nonneg, Forall_fmap, Forall_forall. intros i _.
  apply position_credit_nonneg.
Qed.

(** The scoring loop from position [length pre] on, where [seen] holds the
    letters of [pre]. *)
Lemma score_letters_spec (freq : list (gmap N Z)) (pool : list str) (w : str) :
  represents freq pool → length w ≤ 5 → Forall is_lower w →
  ∀ (suf pre : str) (seen : gset N) (sc : Z),
    w = pre ++ suf → (∀ c, c ∈ seen ↔ c ∈ pre) →
    ∃ seen', for_each (enumerate_from (length pre) suf) (score_letter freq) (seen, sc)
             = Ok (seen', (sc + sum_Z (position_credit pool w
                                         <$> seq (length pre) (length suf)))%Z).
Proof.
  intros [Hlen Hval] Hw Hlow.
  induction suf as [|ch suf IH]; intros pre seen sc Heq Hseen.
  - exists seen. simpl. by rewrite Z.add_0_r.
  - assert (w !! length pre = Some ch) as Hch by (subst w; apply list_lookup_middle; done).
    assert (take (length pre) w = pre) as Htake by (subst w; apply take_app_length).
    assert (position_credit pool w (length pre)
            = if decide (ch ∈ pre) then 0%Z else table_spec pool (length pre) ch) as Hcredit.
    { unfold position_credit. by rewrite Hch, Htake. }
    assert (w = (pre ++ [ch]) ++ suf) as Heq' by (by rewrite <- app_assoc).
    cbn [enumerate_from for_each length seq fmap list_fmap sum_Z foldr].
    change (foldr Z.add 0%Z ?l) with (sum_Z l).
    rewrite Hcredit. unfold score_letter at 1.
    destruct (decide (ch ∈ seen)) as [Hin|Hnin].
    + cbn [bind]. rewrite decide_True by (by apply Hseen).
      destruct (IH (pre ++ [ch]) seen sc Heq') as [seen' E].
      { intros c. rewrite elem_of_app, list_elem_of_singleton, Hseen.
        split; [tauto|]. intros [?| ->]; [done | by apply Hseen]. }
      exists seen'. rewrite length_app, Nat.add_1_r in E. by rewrite E.
    + rewrite decide_False by (by rewrite <- Hseen).
      assert (length pre < 5) as Hk.
      { apply lookup_lt_Some in Hch. lia. }
      assert (is_lower ch) as Hlc.
      { apply (proj1 (Forall_forall _ _) Hlow). subst w.
        apply elem_of_app. right. by left. }
      destruct (freq_val_get _ _ _ _ (Hval _ _ Hk Hlc)) as (d & -> & Hn).
      cbn [bind]. rewrite Hn. cbn [bind].
      destruct (IH (pre ++ [ch]) ({[ch]} ∪ seen)
                  (sc + table_spec pool (length pre) ch)%Z Heq') as [seen' E].
      { intros c.
        rewrite elem_of_app, list_elem_of_singleton, elem_of_union, elem_of_singleton, Hseen.
        tauto. }
      exists seen'. rewrite length_app, Nat.add_1_r in E. rewrite E.
      do 2 f_equal. lia.
Qed.

Lemma word_score_spec (freq : list (gmap N Z)) (pool : list str) (w : str) :
  represents freq pool → is_word w → word_score freq w = Ok (score_spec pool w).
Proof.
  intros Hrep [Hw Hlow].
  destruct (score_letters_spec freq pool w Hrep ltac:(lia) Hlow w [] ∅ 0%Z)
    as [seen' E]; [done | set_solver |].
  unfold word_score, enumerate. simpl in E. rewrite E. cbn [bind snd].
  unfold score_spec. by rewrite Hw.
Qed.

(** ** pick_smart: the selection loop *)

Lemma best_loop_spec (freq : list (gmap N Z)) (score : str → Z) (l : list str) :
  (∀ w, w ∈ l → word_score freq w = Ok (score w)) →
  ∀ (bs : Z) (bw : str),
  ∃ bs' bw', for_each l (best_body freq) (bs, bw) = Ok (bs', bw') ∧
    (bs ≤ bs')%Z ∧ (∀ w, w ∈ l → (score w ≤ bs')%Z) ∧
    ((bs' = bs ∧ bw' = bw) ∨
     ∃ pre post, l = pre ++ bw' :: post ∧ score bw' = bs' ∧ (bs < bs')%Z ∧
                 ∀ w, w ∈ pre → (score w < bs')%Z).
Proof.
  induction l as [|x l IH]; intros Hscore bs bw.
  - exists bs, bw. split_and!; [done | lia | | by left].
    intros w Hin. by apply elem_of_nil in Hin.
  - cbn [for_each]. unfold best_body at 1.
    rewrite (Hscore x) by (by left). cbn [bind].
    assert (∀ w, w ∈ l → word_score freq w = Ok (score w)) as Hl
      by (intros w Hin; apply Hscore; by right).
    destruct (decide (score x > bs)%Z) as [Hgt|Hle]; cbn [bind].
    + destruct (IH Hl (score x) x) as (bs' & bw' & E & Hmono & Hmax & Hcase).
      exists bs', bw'. split_and!; [done | lia | |].
      * intros w [->|Hin]%elem_of_cons; [lia | by apply Hmax].
      * right. destruct Hcase as [[-> ->]|(pre & post & -> & Hs & Hlt & Hpre)].
        -- exists [], l. split_and!; [done | done | lia |].
           intros w Hin. by apply elem_of_nil in Hin.
        -- exists (x :: pre), post. split_and!; [done | done | lia |].
           intros w [->|Hin]%elem_of_cons; [lia | by apply Hpre].
    + destruct (IH Hl bs bw) as (bs' & bw' & E & Hmono & Hmax & Hcase).
      exists bs', bw'. split_and!; [done | lia | |].
      * intros w [->|Hin]%elem_of_cons; [lia | by apply Hmax].
      * destruct Hcase as [[-> ->]|(pre & post & -> & Hs & Hlt & Hpre)]; [by left|].
        right. exists (x :: pre), post. split_and!; [done | done | lia |].
        intros w [->|Hin]%elem_of_cons; [lia | by apply Hpre].
Qed.

(** ** pick_smart: the vowel-heavy words *)

Lemma foldl_max_spec (l : list Z) : ∀ x : Z,
  foldl Z.max x l ∈ x :: l ∧ ∀ y, y ∈ x :: l → (y ≤ foldl Z.max x l)%Z.
Proof.
  induction l as [|z l IH]; intros x; simpl.
  - split; [by left|]. intros y Hy%list_elem_of_singleton. lia.
  - destruct (IH (Z.max x z)) as [Hin Hmax]. split.
    + apply elem_of_cons in Hin as [Heq|Hin]; [|by do 2 right].
      rewrite Heq. destruct (Z.max_spec x z) as [[_ ->]|[_ ->]]; [right|]; by left.
    + intros y Hy. rewrite !elem_of_cons in Hy.
      assert (Z.max x z ≤ foldl Z.max (Z.max x z) l)%Z by (apply Hmax; by left).
      destruct Hy as [->|[->|Hy]]; [lia | lia |]. apply Hmax. by right.
Qed.

Lemma filter_ext_in {A : Type} (P Q : A → Prop)
    `{∀ x, Decision (P x)} `{∀ x, Decision (Q x)} (l : list A) :
  (∀ x, x ∈ l → P x ↔ Q x) → filter P l = filter Q l.
Proof.
  induction l as [|x l IH]; intros Hext; [done|].
  rewrite !filter_cons. rewrite IH by (intros y Hy; apply Hext; by right).
  destruct (decide (P x)) as [HP|HP]; destruct (decide (Q x)) as [HQ|HQ]; try done;
    exfalso; apply (Hext x) in HP || apply (Hext x) in HQ; done || by left.
Qed.

Lemma vowel_heavy_of_filter (cands : list str) (m : Z) :
  vowel_heavy_of (vowel_counts cands) m = filter (λ w, vowel_count w = m) cands.
Proof.
  unfold vowel_heavy_of, vowel_counts. induction cands as [|w cands IH]; [done|].
  rewrite fmap_cons, !filter_cons. cbn [fst]. case_decide; [|done].
  rewrite fmap_cons. cbn [snd]. by rewrite IH.
Qed.

(** On a pool that is not empty, the vowel-heavy list of the program is the
    list of words with the maximum vowel count, in pool order. *)
Lemma vowel_heavy_spec (cands : list str) :
  cands ≠ [] → vowel_heavy cands = Ok (max_vowel_words cands).
Proof.
  intros Hne. unfold vowel_heavy. cbv zeta.
  destruct cands as [|w0 ws]; [done|].
  set (cands := w0 :: ws).
  assert (fst <$> vowel_counts cands = vowel_count <$> cands) as ->.
  { unfold vowel_counts. rewrite <- list_fmap_compose. done. }
  unfold cands at 1. rewrite fmap_cons. cbn [py_max bind].
  rewrite vowel_heavy_of_filter. subst cands.
  destruct (foldl_max_spec (vowel_count <$> ws) (vowel_count w0)) as [Hin Hmax].
  rewrite <- fmap_cons in Hin, Hmax.
  set (m := foldl Z.max (vowel_count w0) (vowel_count <$> ws)) in *.
  f_equal. unfold max_vowel_words. apply filter_ext_in. intros w Hw. split.
  - intros Hm. apply Forall_forall. intros w' Hw'. rewrite Hm.
    apply Hmax. apply list_elem_of_fmap. by exists w'.
  - intros Hall. apply list_elem_of_fmap in Hin as (wm & Hm & Hwm).
    assert (vowel_count wm ≤ vowel_count w)%Z
      by (by apply (proj1 (Forall_forall _ _) Hall)).
    assert (vowel_count w ≤ m)%Z
      by (apply Hmax, list_elem_of_fmap; by exists w).
    lia.
Qed.

Lemma max_vowel_words_nonempty (cands : list str) :
  cands ≠ [] → max_vowel_words cands ≠ [].
Proof.
  intros Hne. destruct cands as [|w0 ws]; [done|].
  destruct (foldl_max_spec (vowel_count <$> ws) (vowel_count w0)) as [Hin Hmax].
  rewrite <- fmap_cons in Hin, Hmax.
  apply list_elem_of_fmap in Hin as (wm & Hm & Hwm).
  assert (wm ∈ max_vowel_words (w0 :: ws)) as Hmem.
  { apply list_elem_of_filter. split; [|done]. apply Forall_forall. intros w' Hw'.
    rewrite <- Hm. apply Hmax, list_elem_of_fmap. by exists w'. }
  intros Heq. rewrite Heq in Hmem. by apply elem_of_nil in Hmem.
Qed.

Lemma max_vowel_words_subseteq (cands : list str) (w : str) :
  w ∈ max_vowel_words cands → w ∈ cands.
Proof. unfold max_vowel_words. by intros [_ ?]%list_elem_of_filter. Qed.

(** ** pick_smart *)

Lemma pick_smart_single (cands : list str) (w : str) :
  max_vowel_words cands = [w] → pick_smart cands = Ok w.
Proof.
  intros Hvh. unfold pick_smart.
  rewrite vowel_heavy_spec by (intros ->; done).
  cbn [bind]. rewrite Hvh. done.
Qed.

(** With several vowel-heavy words: the first one with the highest score. *)
Lemma pick_smart_scored (cands : list str) :
  Forall is_word cands → cands ≠ [] → length (max_vowel_words cands) ≠ 1 →
  ∃ w pre post, pick_smart cands = Ok w ∧
    max_vowel_words cands = pre ++ w :: post ∧
    (∀ w', w' ∈ pre → (score_spec cands w' < score_spec cands w)%Z) ∧
    (∀ w', w' ∈ post → (score_spec cands w' ≤ score_spec cands w)%Z).
Proof.
  intros Hwords Hne Hlen. unfold pick_smart.
  rewrite vowel_heavy_spec by done. cbn [bind].
  rewrite decide_False by done.
  destruct (build_freq_spec cands Hwords) as (freq & -> & Hrep). cbn [bind].
  pose proof (max_vowel_words_nonempty cands Hne) as Hvh.
  destruct (max_vowel_words cands) as [|w0 vh] eqn:Evh; [done|].
  cbn [getitem lookup list_lookup bind].
  destruct (best_loop_spec freq (score_spec cands) (w0 :: vh)) with (bs := (-1)%Z) (bw := w0)
    as (bs' & bw' & -> & _ & Hmax & Hcase).
  { intros w Hw. apply word_score_spec; [done|].
    apply (proj1 (Forall_forall _ _) Hwords), max_vowel_words_subseteq.
    by rewrite Evh. }
  cbn [bind snd].
  destruct Hcase as [[-> ->]|(pre & post & Hl & Hs & _ & Hpre)].
  { pose proof (Hmax w0 ltac:(by left)). pose proof (score_spec_nonneg cands w0). lia. }
  exists bw', pre, post. split_and!; [done | done | |].
  - intros w' Hw'. rewrite Hs. by apply Hpre.
  - intros w' Hw'. rewrite Hs. apply Hmax. rewrite Hl. set_solver.
Qed.

(** ** pick_smart: shape of the table and the exceptions it can raise *)

Lemma for_each_preserves {S A : Type} (P : S → Prop) (body : S → A → result S)
    (xs : list A) :
  (∀ st x st', P st → body st x = Ok st' → P st') →
  ∀ st st', P st → for_each xs body st = Ok st' → P st'.
Proof.
  intros Hbody. induction xs as [|x xs IH]; intros st st' HP; simpl.
  - by intros [= <-].
  - destruct (body st x) as [st1|e] eqn:E; simpl; [|done]. eauto.
Qed.

Lemma for_each_Raise {S A : Type} (P : exn → Prop) (body : S → A → result S)
    (xs : list A) :
  (∀ st x e, body st x = Raise e → P e) →
  ∀ st e, for_each xs body st = Raise e → P e.
Proof.
  intros Hbody. induction xs as [|x xs IH]; intros st e; simpl; [done|].
  destruct (body st x) as [st1|e1] eqn:E; simpl; [apply IH|].
  intros [= <-]. eauto.
Qed.

Lemma dict_fromkeys_dom (keys : list N) (v : Z) :
  dom (dict_fromkeys keys v) = list_to_set keys.
Proof.
  unfold dict_fromkeys. induction keys as [|k keys IH].
  - apply dom_empty_L.
  - rewrite fmap_cons. cbn [list_to_map foldr list_to_set].
    rewrite dom_insert_L. by rewrite <- IH.
Qed.

Lemma count_letter_shape (freq freq' : list (gmap N Z)) (ich : nat * N) :
  table_shape freq → count_letter freq ich = Ok freq' → table_shape freq'.
Proof.
  destruct ich as [i ch]. intros [Hlen Hdom]. unfold count_letter, getitem, dict_get, setitem.
  destruct (freq !! i) as [d|] eqn:Hd; [|done]. cbn [bind].
  destruct (d !! ch) as [n|] eqn:Hn; [|done]. cbn [bind].
  case_decide; [|done]. intros [= <-]. split; [by rewrite length_insert|].
  apply Forall_insert; [done|].
  rewrite dom_insert_L.
  assert (dom d = list_to_set ALPHABET) as <-
    by (eapply (proj1 (Forall_lookup _ _) Hdom); done).
  apply subseteq_union_1_L, singleton_subseteq_l, elem_of_dom. eauto.
Qed.

Lemma build_freq_shape (cands : list str) (freq : list (gmap N Z)) :
  build_freq cands = Ok freq → table_shape freq.
Proof.
  unfold build_freq. apply for_each_preserves.
  - intros st w st' Hst. unfold count_word. apply for_each_preserves; [|done].
    intros st1 ich st2. apply count_letter_shape.
  - split; [done|]. apply Forall_replicate, dict_fromkeys_dom.
Qed.

Lemma count_letter_Raise (freq : list (gmap N Z)) (ich : nat * N) (e : exn) :
  count_letter freq ich = Raise e → e ≠ ValueError.
Proof.
  destruct ich as [i ch]. unfold count_letter, getitem, dict_get, setitem, bind.
  intros He. repeat case_match; by simplify_eq.
Qed.

Lemma build_freq_Raise (cands : list str) (e : exn) :
  build_freq cands = Raise e → e ≠ ValueError.
Proof.
  unfold build_freq. apply (for_each_Raise (λ e, e ≠ ValueError)).
  intros st w e'. unfold count_word.
  apply (for_each_Raise (λ e, e ≠ ValueError)).
  intros st' ich e''. apply count_letter_Raise.
Qed.

Lemma best_body_Raise (freq : list (gmap N Z)) (st : Z * str) (w : str) (e : exn) :
  best_body freq st w = Raise e → e ≠ ValueError.
Proof.
  destruct st as [bs bw]. unfold best_body, word_score.
  destruct (for_each (enumerate w) (score_letter freq) (∅, 0%Z)) as [st'|e'] eqn:E;
    cbn [bind]; [by case_decide|].
  intros [= <-]. revert E. apply (for_each_Raise (λ e, e ≠ ValueError)). clear.
  intros [seen sc] [i ch] e. unfold score_letter, getitem, dict_get, bind.
  intros He. repeat case_match; by simplify_eq.
Qed.

(** ** pick_smart: the claims *)

(** C3: on a pool of words where more than one word has the maximum vowel
    count, [pick_smart] builds the table of 5 positions by 26 letters over
    the whole pool, gives each vowel-heavy word the sum of its table entries
    with a repeated letter credited once, at its first position, and returns
    the vowel-heavy word of highest score, the first one on ties. *)
Theorem pick_smart_tie_break (cands : list str) :
  Forall is_word cands → 1 < length (max_vowel_words cands) →
  ∃ freq w pre post,
    build_freq cands = Ok freq ∧ table_shape freq ∧ represents freq cands ∧
    (∀ v, v ∈ max_vowel_words cands → word_score freq v = Ok (score_spec cands v)) ∧
    pick_smart cands = Ok w ∧
    max_vowel_words cands = pre ++ w :: post ∧
    (∀ w', w' ∈ pre → (score_spec cands w' < score_spec cands w)%Z) ∧
    (∀ w', w' ∈ post → (score_spec cands w' ≤ score_spec cands w)%Z).
Proof.
  intros Hwords Hlen.
  assert (cands ≠ []) as Hne by (intros ->; simpl in Hlen; lia).
  destruct (build_freq_spec cands Hwords) as (freq & Hfreq & Hrep).
  destruct (pick_smart_scored cands Hwords Hne) as (w & pre & post & Hpick & Hvh & Hpre & Hpost);
    [lia|].
  exists freq, w, pre, post. split_and!; try done.
  - by eapply build_freq_shape.
  - intros v Hv. apply word_score_spec; [done|].
    by apply (proj1 (Forall_forall _ _) Hwords), max_vowel_words_subseteq.
Qed.

(** C9: on a pool of words that is not empty, [pick_smart] returns a word
    of the pool; on a pool of one word it returns that word. *)
Theorem pick_smart_member :
  (∀ cands, cands ≠ [] → Forall is_word cands →
            ∃ w, pick_smart cands = Ok w ∧ w ∈ cands) ∧
  (∀ w, pick_smart [w] = Ok w).
Proof.
  split.
  - intros cands Hne Hwords.
    destruct (decide (length (max_vowel_words cands) = 1)) as [Hlen|Hlen].
    + destruct (max_vowel_words cands) as [|w [|]] eqn:Evh; try done.
      exists w. split; [by apply pick_smart_single|].
      apply max_vowel_words_subseteq. rewrite Evh. by left.
    + destruct (pick_smart_scored cands Hwords Hne Hlen) as (w & pre & post & Hpick & Hvh & _).
      exists w. split; [done|]. apply max_vowel_words_subseteq. rewrite Hvh. set_solver.
  - intros w. apply pick_smart_single. unfold max_vowel_words.
    rewrite filter_cons, decide_True; [done|]. by repeat constructor.
Qed.

(** C10: on the empty pool [pick_smart] raises the [ValueError] of [max]
    on an empty sequence; on a pool that is not empty that exception is
    never raised. *)
Theorem pick_smart_empty :
  pick_smart [] = Raise ValueError ∧
  ∀ cands, cands ≠ [] → pick_smart cands ≠ Raise ValueError.
Proof.
  split; [done|]. intros cands Hne. unfold pick_smart.
  rewrite vowel_heavy_spec by done. cbn [bind].
  pose proof (max_vowel_words_nonempty cands Hne) as Hvh.
  destruct (max_vowel_words cands) as [|w0 vh]; [done|].
  case_decide; [done|].
  destruct (build_freq cands) as [freq|e] eqn:Efreq; cbn [bind].
  - cbn [getitem lookup list_lookup bind].
    destruct (for_each (w0 :: vh) (best_body freq) ((-1)%Z, w0)) as [best|e] eqn:Ebest;
      cbn [bind]; [done|].
    pose proof (for_each_Raise (λ e, e ≠ ValueError) (best_body freq) (w0 :: vh)
                  (best_body_Raise freq) _ _ Ebest) as Hno.
    by intros [= ->].
  - intros [= ->]. by apply build_freq_Raise in Efreq.
Qed.

Lemma pick_smart_tie_break_witness :
  ∃ freq w pre post,
    build_freq [codes "crane"; codes "slate"; codes "stale"] = Ok freq ∧
    table_shape freq ∧
    represents freq [codes "crane"; codes "slate"; codes "stale"] ∧
    (∀ v, v ∈ max_vowel_words [codes "crane"; codes "slate"; codes "stale"] →
          word_score freq v
          = Ok (score_spec [codes "crane"; codes "slate"; codes "stale"] v)) ∧
    pick_smart [codes "crane"; codes "slate"; codes "stale"] = Ok w ∧
    max_vowel_words [codes "crane"; codes "slate"; codes "stale"] = pre ++ w :: post ∧
    (∀ w', w' ∈ pre →
       (score_spec [codes "crane"; codes "slate"; codes "stale"] w'
        < score_spec [codes "crane"; codes "slate"; codes "stale"] w)%Z) ∧
    (∀ w', w' ∈ post →
       (score_spec [codes "crane"; codes "slate"; codes "stale"] w'
        ≤ score_spec [codes "crane"; codes "slate"; codes "stale"] w)%Z).
Proof.
  apply (pick_smart_tie_break [codes "crane"; codes "slate"; codes "stale"]).
  - apply (bool_decide_unpack _). vm_compute. exact I.
  - vm_compute. lia.
Defined.

Lemma pick_smart_member_witness :
  ∃ w, pick_smart [codes "crane"; codes "slate"; codes "adieu"] = Ok w ∧
       w ∈ [codes "crane"; codes "slate"; codes "adieu"].
Proof.
  apply (proj1 pick_smart_member [codes "crane"; codes "slate"; codes "adieu"]).
  - discriminate.
  - apply (bool_decide_unpack _). vm_compute. exact I.
Defined.

Lemma pick_smart_empty_witness :
  pick_smart [codes "crane"] ≠ Raise ValueError.
Proof. apply (proj2 pick_smart_empty [codes "crane"]). discriminate. Defined.

(** * Further properties *)

(** ** More on evaluate_guess *)

Lemma for_each_seq_pres {S : Type} (I : nat → S → Prop) (body : S → nat → result S) n :
  ∀ a st st',
  I a st →
  (∀ i st st', a ≤ i < a + n → I i st → body st i = Ok st' → I (Datatypes.S i) st') →
  for_each (seq a n) body st = Ok st' → I (a + n) st'.
Proof.
  induction n as [|n IH]; intros a st st' H0 Hstep; simpl.
  - intros [= <-]. by rewrite Nat.add_0_r.
  - destruct (body st a) as [st1|e] eqn:E; simpl; [|done].
    intros Hrest. replace (a + Datatypes.S n) with (Datatypes.S a + n) by lia.
    apply (IH (Datatypes.S a) st1 st'); [|intros i s1 s2 Hi; apply Hstep; lia|done].
    apply (Hstep a st st1); [lia|done|done].
Qed.

Lemma for_each_seq_raise {S : Type} (I : nat → S → Prop) (body : S → nat → result S)
    (k : nat) (e : exn) n :
  ∀ a st,
  I a st → a ≤ k < a + n →
  (∀ i st, a ≤ i < k → I i st → ∃ st', body st i = Ok st' ∧ I (Datatypes.S i) st') →
  (∀ st, I k st → body st k = Raise e) →
  for_each (seq a n) body st = Raise e.
Proof.
  induction n as [|n IH]; intros a st H0 Hk Hstep Hraise; simpl; [lia|].
  destruct (decide (a = k)) as [->|Hne].
  - by rewrite Hraise.
  - destruct (Hstep a st) as (st1 & -> & H1); [lia|done|]. simpl.
    apply IH; [done | lia | intros i s1 Hi; apply Hstep; lia | done].
Qed.

Lemma count_if_app {A : Type} (p : A → bool) (l1 l2 : list A) :
  count_if p (l1 ++ l2) = count_if p l1 + count_if p l2.
Proof. induction l1 as [|x l1 IH]; simpl; [done|]. rewrite IH. lia. Qed.

Lemma count_if_zero {A : Type} `{EqDecision A} (x : A) (l : list A) :
  count_if (λ y, bool_decide (y = x)) l = 0 ↔ x ∉ l.
Proof.
  induction l as [|y l IH]; simpl.
  - split; [intros _; apply not_elem_of_nil | done].
  - rewrite not_elem_of_cons, <- IH. case_bool_decide as Hy; simpl.
    + split; [lia | intros [Hne _]; by destruct Hne].
    + split; [by split | by intros [_ ?]].
Qed.

Lemma skipped_S L i (g : str) (fb : list Z) gi f :
  g !! i = Some gi → fb !! i = Some f →
  skipped L (S i) g fb = skipped L i g fb + (if uncredited L (gi, f) then 1 else 0).
Proof.
  intros Hg Hf. unfold skipped.
  rewrite (take_S_r _ _ _ Hg), (take_S_r _ _ _ Hf).
  rewrite zip_with_app by (rewrite !length_take; apply lookup_lt_Some in Hg, Hf; lia).
  rewrite count_if_app. simpl. lia.
Qed.

Lemma skipped_insert L i (g : str) (fb : list Z) f :
  skipped L i g (<[i:=f]> fb) = skipped L i g fb.
Proof. unfold skipped. by rewrite take_insert_ge. Qed.

Section EvaluateMarks.
Variables guess secret : list N.
Hypothesis Hguess : 5 ≤ length guess.
Hypothesis Hsecret : 5 ≤ length secret.

Lemma pass1_marks_step i st st' :
  i < 5 → pass1_marks guess secret i st →
  pass1_body guess secret st i = Ok st' → pass1_marks guess secret (S i) st'.
Proof.
  destruct st as [fb sc]. intros Hi [Hlen Hmarks]. cbn [fst snd] in *.
  destruct (lookup_lt_is_Some_2 guess i) as [gi Hgi]; [lia|].
  destruct (lookup_lt_is_Some_2 secret i) as [si Hsi]; [lia|].
  unfold pass1_body. rewrite (getitem_Ok _ _ _ Hgi), (getitem_Ok _ _ _ Hsi). cbn [bind].
  case_decide as Heq.
  - rewrite setitem_Ok by lia. cbn [bind]. unfold setitem. case_decide; [|done].
    cbn [bind]. intros [= <-]. split; cbn [fst snd]; [by rewrite length_insert|].
    intros j Hj. destruct (decide (j = i)) as [->|Hne].
    + rewrite list_lookup_insert_eq by lia.
      rewrite decide_True; [done|]. split; [lia|]. rewrite Hgi, Hsi. by subst.
    + rewrite list_lookup_insert_ne by done. rewrite Hmarks by done.
      destruct (decide (j < i ∧ guess !! j = secret !! j)) as [[? ?]|Hn].
      * by rewrite decide_True by (split; [lia | done]).
      * rewrite decide_False; [done|]. intros [? ?]. apply Hn. split; [lia | done].
  - intros [= <-]. split; cbn [fst snd]; [done|].
    intros j Hj. rewrite Hmarks by done.
    destruct (decide (j < i ∧ guess !! j = secret !! j)) as [[? ?]|Hn].
    + by rewrite decide_True by (split; [lia | done]).
    + rewrite decide_False; [done|]. intros [Hlt Hjeq]. apply Hn. split; [|done].
      destruct (decide (j = i)) as [->|]; [|lia].
      rewrite Hgi, Hsi in Hjeq. congruence.
Qed.

Lemma pass1_marks_done st :
  pass1_marks guess secret 5 st → pass2_marks guess secret 0 st.
Proof.
  intros [Hlen Hmarks]. split_and!; [done | |].
  - intros j Hj. rewrite Hmarks by done.
    destruct (decide (j < 5 ∧ guess !! j = secret !! j)) as [[? ?]|Hn].
    + exists 2%Z. split_and!; [done | by do 2 right | done].
    + exists 0%Z. split_and!; [done | by left |]. split; [done|].
      intros Heq. destruct Hn. by split.
  - intros L. by left.
Qed.

Lemma pass2_marks_step i st st' :
  i < 5 → pass2_marks guess secret i st →
  pass2_body guess st i = Ok st' → pass2_marks guess secret (S i) st'.
Proof.
  destruct st as [fb sc]. intros Hi (Hlen & Hmarks & Hskip). cbn [fst snd] in *.
  destruct (Hmarks i Hi) as (fi & Hfi & Hclass & Hexact).
  destruct (lookup_lt_is_Some_2 guess i) as [gi Hgi]; [lia|].
  unfold pass2_body. rewrite (getitem_Ok _ _ _ Hfi). cbn [bind].
  case_decide as Hz.
  - subst fi. rewrite (getitem_Ok _ _ _ Hgi). cbn [bind].
    unfold contains. case_bool_decide as Hin.
    + destruct (list_index_spec _ _ Hin) as (j & Hj & Hscj).
      rewrite setitem_Ok by lia. cbn [bind]. rewrite Hj. cbn [bind].
      rewrite setitem_Ok by (by eapply lookup_lt_Some). cbn [bind].
      intros [= <-]. split_and!; cbn [fst snd].
      * by rewrite length_insert.
      * intros k Hk. destruct (decide (k = i)) as [->|Hne].
        -- exists 1%Z. rewrite list_lookup_insert_eq by lia.
           split_and!; [done | right; by left |]. split; [done|].
           intros Heq. apply Hexact in Heq. done.
        -- rewrite list_lookup_insert_ne by done. by apply Hmarks.
      * intros L. rewrite (skipped_S L i guess _ gi 1%Z Hgi)
          by (by rewrite list_lookup_insert_eq by lia).
        rewrite skipped_insert. unfold uncredited. cbn [fst snd].
        rewrite (bool_decide_eq_false_2 (1%Z = 0%Z)) by done.
        rewrite andb_false_r, Nat.add_0_r.
        destruct (Hskip L) as [?|Hav]; [by left|]. right.
        pose proof (count_if_insert (λ o, bool_decide (o = Some L)) sc j _ None Hscj) as Ha.
        unfold available in *. simpl in Ha. lia.
    + intros [= <-]. split_and!; cbn [fst snd]; [done | done |].
      intros L. rewrite (skipped_S L i guess fb gi 0%Z Hgi Hfi).
      unfold uncredited. cbn [fst snd].
      destruct (decide (gi = L)) as [->|Hne].
      * right. unfold available. by apply count_if_zero.
      * rewrite (bool_decide_eq_false_2 (gi = L)) by done. simpl.
        rewrite Nat.add_0_r. apply Hskip.
  - intros [= <-]. split_and!; cbn [fst snd]; [done | done |].
    intros L. rewrite (skipped_S L i guess fb gi fi Hgi Hfi).
    unfold uncredited. cbn [fst snd].
    rewrite (bool_decide_eq_false_2 (fi = 0%Z)) by done.
    rewrite andb_false_r, Nat.add_0_r. apply Hskip.
Qed.

(** The feedback returned on words of at least five letters, with what
    both passes have established about it. *)
Lemma evaluate_guess_marks :
  ∃ fb sc, evaluate_guess guess secret = Ok fb ∧
           pass2_inv guess secret (fb, sc) ∧ pass2_marks guess secret 5 (fb, sc).
Proof.
  unfold evaluate_guess, range.
  destruct (for_each_seq_inv (pass1_inv guess secret) (pass1_body guess secret) 0 5
              (replicate 5 0%Z, Some <$> secret)) as (st1 & E1 & H1).
  { by apply pass1_init. }
  { intros i st Hi. apply pass1_step; done || lia. }
  pose proof (for_each_seq_pres (pass1_marks guess secret) (pass1_body guess secret)
                5 0 (replicate 5 0%Z, Some <$> secret) st1) as M1.
  rewrite E1. cbn [bind].
  destruct (for_each_seq_inv (λ _, pass2_inv guess secret) (pass2_body guess) 0 5 st1)
    as (st2 & E2 & H2).
  { destruct H1 as (? & ? & ? & ? & ?). by split. }
  { intros i st Hi. apply (pass2_step guess secret); done || lia. }
  pose proof (for_each_seq_pres (pass2_marks guess secret) (pass2_body guess)
                5 0 st1 st2) as M2.
  rewrite E2. cbn [bind]. destruct st2 as [fb sc]. exists fb, sc.
  split_and!; [done | done |]. apply M2; [|intros i s1 s2 Hi; apply pass2_marks_step; lia|done].
  apply pass1_marks_done, M1; [|intros i s1 s2 Hi; apply pass1_marks_step; lia|done].
  split; [done|]. intros j Hj. cbn [fst].
  rewrite lookup_replicate_2 by done. by rewrite decide_False by lia.
Qed.
End EvaluateMarks.

Lemma evaluate_guess_short (g s : list N) :
  length g < 5 ∨ length s < 5 → evaluate_guess g s = Raise IndexError.
Proof.
  intros Hshort. unfold evaluate_guess, range.
  rewrite (for_each_seq_raise
             (λ _ st, length (fst st) = 5 ∧ length (snd st) = length s)
             (pass1_body g s) (min (length g) (length s)) IndexError 5 0).
  - done.
  - split; [done|]. cbn [snd]. by rewrite length_fmap.
  - lia.
  - intros i [fb sc] Hi [Hfb Hsc]. cbn [fst snd] in *.
    destruct (lookup_lt_is_Some_2 g i) as [gi Hgi]; [lia|].
    destruct (lookup_lt_is_Some_2 s i) as [si Hsi]; [lia|].
    unfold pass1_body. rewrite (getitem_Ok _ _ _ Hgi), (getitem_Ok _ _ _ Hsi). cbn [bind].
    case_decide.
    + rewrite !setitem_Ok by lia. cbn [bind]. eexists. split; [done|].
      cbn [fst snd]. by rewrite !length_insert.
    + by eexists.
  - intros [fb sc] _. unfold pass1_body, getitem.
    destruct (g !! min (length g) (length s)) as [gi|] eqn:Hgi; [|done]. cbn [bind].
    apply lookup_lt_Some in Hgi.
    rewrite (lookup_ge_None_2 s) by lia. done.
Qed.

Lemma pass2_marks_classification (g s : list N) (st : eval_state) i :
  pass2_marks g s i st → is_classification (fst st).
Proof.
  intros (Hlen & Hmarks & _). split; [done|].
  apply Forall_lookup. intros j f Hj.
  destruct (Hmarks j) as (f' & Hf' & Hclass & _).
  { apply lookup_lt_Some in Hj. lia. }
  congruence.
Qed.

(** X1: [evaluate_guess] raises [IndexError] when either word has fewer than
    five letters; otherwise it returns five classes among 0, 1, 2. *)
Theorem evaluate_guess_outcome (g s : str) :
  (length g < 5 ∨ length s < 5 → evaluate_guess g s = Raise IndexError) ∧
  (5 ≤ length g → 5 ≤ length s →
   ∃ fb, evaluate_guess g s = Ok fb ∧ is_classification fb).
Proof.
  split; [apply evaluate_guess_short|]. intros Hg Hs.
  destruct (evaluate_guess_marks g s Hg Hs) as (fb & sc & E & _ & Hmarks).
  exists fb. split; [done|]. by apply pass2_marks_classification in Hmarks.
Qed.

Lemma evaluate_guess_outcome_witness :
  evaluate_guess (codes "spee") (codes "erase") = Raise IndexError.
Proof. apply (proj1 (evaluate_guess_outcome (codes "spee") (codes "erase"))). left. simpl. lia. Defined.

(** X2: a position is classified EXACT exactly when guess and secret hold
    the same letter there. *)
Theorem evaluate_guess_exact_positions (g s : str) :
  5 ≤ length g → 5 ≤ length s →
  ∃ fb, evaluate_guess g s = Ok fb ∧
        ∀ j, j < 5 → (fb !! j = Some 2%Z ↔ g !! j = s !! j).
Proof.
  intros Hg Hs.
  destruct (evaluate_guess_marks g s Hg Hs) as (fb & sc & E & _ & _ & Hmarks & _).
  exists fb. split; [done|]. intros j Hj.
  destruct (Hmarks j Hj) as (f & Hf & _ & Hexact). cbn [fst] in Hf.
  rewrite Hf. rewrite <- Hexact. split; [by intros [= ->] | by intros ->].
Qed.

Lemma evaluate_guess_exact_positions_witness :
  ∃ fb, evaluate_guess (codes "allee") (codes "eagle") = Ok fb ∧
        ∀ j, j < 5 → (fb !! j = Some 2%Z ↔ codes "allee" !! j = codes "eagle" !! j).
Proof.
  apply (evaluate_guess_exact_positions (codes "allee") (codes "eagle")); simpl; lia.
Defined.

Lemma credited_uncredited L (g : list N) (fb : list Z) :
  length g = length fb → Forall (λ f, f = 0%Z ∨ f = 1%Z ∨ f = 2%Z) fb →
  credited L g fb + count_if (uncredited L) (zip g fb) = occurrences L g.
Proof.
  unfold credited, occurrences, credits, uncredited, is_hit. revert fb.
  induction g as [|c g IH]; intros [|f fb] Hlen Hfb; simplify_eq/=; [done|].
  apply Forall_cons in Hfb as [Hf Hfb]. specialize (IH fb Hlen Hfb).
  case_bool_decide; simpl; [|lia].
  destruct Hf as [-> | [-> | ->]]; simpl; lia.
Qed.

(** X3: for words of five letters, the positions credited to a letter are
    as many as its occurrences allow: the smaller of its counts in the guess
    and in the secret. *)
Theorem evaluate_guess_credit_exact (g s : str) :
  length g = 5 → length s = 5 →
  ∃ fb, evaluate_guess g s = Ok fb ∧
        ∀ L, credited L g fb = min (occurrences L g) (occurrences L s).
Proof.
  intros Hg Hs.
  destruct (evaluate_guess_marks g s) as (fb & sc & E & [_ Hsum] & Hmarks); [lia | lia |].
  exists fb. split; [done|]. intros L.
  pose proof (pass2_marks_classification _ _ _ _ Hmarks) as [Hlen Hclass].
  destruct Hmarks as (_ & _ & Hskip). cbn [fst snd] in *.
  pose proof (credited_uncredited L g fb ltac:(lia) Hclass) as Hocc.
  specialize (Hsum L). specialize (Hskip L). unfold skipped in Hskip.
  rewrite !take_ge in Hskip by lia. lia.
Qed.

Lemma evaluate_guess_credit_exact_witness :
  ∃ fb, evaluate_guess (codes "speed") (codes "erase") = Ok fb ∧
        ∀ L, credited L (codes "speed") fb
             = min (occurrences L (codes "speed")) (occurrences L (codes "erase")).
Proof. apply (evaluate_guess_credit_exact (codes "speed") (codes "erase")); reflexivity. Defined.

Lemma lookup_all_eq {A : Type} (l k : list A) :
  length l = 5 → length k = 5 → (∀ j, j < 5 → l !! j = k !! j) → l = k.
Proof.
  intros Hl Hk Heq. apply list_eq. intros j.
  destruct (decide (j < 5)) as [Hj|Hj]; [by apply Heq|].
  by rewrite !lookup_ge_None_2 by lia.
Qed.

Lemma evaluate_guess_green_iff (g s : list N) :
  length g = 5 → length s = 5 →
  (evaluate_guess g s = Ok [2; 2; 2; 2; 2]%Z ↔ g = s).
Proof.
  intros Hg Hs.
  destruct (evaluate_guess_marks g s) as (fb & sc & E & _ & Hmarks); [lia | lia |].
  pose proof (pass2_marks_classification _ _ _ _ Hmarks) as [Hlen _].
  destruct Hmarks as (_ & Hmarks & _). cbn [fst] in *.
  rewrite E. split.
  - intros [= ->]. apply lookup_all_eq; [done | done |].
    intros j Hj. destruct (Hmarks j Hj) as (f & Hf & _ & Hexact).
    apply Hexact.
    destruct j as [|[|[|[|[|j]]]]]; simplify_eq/=; done || lia.
  - intros ->. f_equal. apply lookup_all_eq; [done | done |].
    intros j Hj. destruct (Hmarks j Hj) as (f & -> & _ & Hexact).
    assert (f = 2%Z) as -> by by apply Hexact.
    destruct j as [|[|[|[|[|j]]]]]; done || lia.
Qed.

(** X4: for words of five letters the feedback is all EXACT if and only if
    the guess is the secret. *)
Theorem evaluate_guess_all_exact_iff (g s : str) :
  length g = 5 → length s = 5 →
  (evaluate_guess g s = Ok [2; 2; 2; 2; 2]%Z ↔ g = s).
Proof. apply evaluate_guess_green_iff. Qed.

Lemma evaluate_guess_all_exact_iff_witness :
  evaluate_guess (codes "crane") (codes "crate") = Ok [2; 2; 2; 2; 2]%Z
  ↔ codes "crane" = codes "crate".
Proof. apply (evaluate_guess_all_exact_iff (codes "crane") (codes "crate")); reflexivity. Defined.

(** ** Normalizing the input twice *)

Lemma py_lower_char_cases (c : N) :
  py_lower_char c = c ∨
  (py_lower_char c = (c + 32)%N ∧ ((65 ≤ c ≤ 90)%N ∨ (192 ≤ c ≤ 222)%N)).
Proof.
  unfold py_lower_char.
  destruct (N.leb_spec 65 c), (N.leb_spec c 90), (N.leb_spec 192 c), (N.leb_spec c 222),
    (N.eqb_spec c 215); simpl; try (by left); right; split; try done; lia.
Qed.

Ltac decide_cmp :=
  repeat match goal with
         | |- context [(?a <=? ?b)%N] => destruct (N.leb_spec a b); try lia
         | |- context [(?a =? ?b)%N] => destruct (N.eqb_spec a b); try lia
         end.

Lemma py_isspace_lower (c : N) : py_isspace (py_lower_char c) = py_isspace c.
Proof.
  destruct (py_lower_char_cases c) as [->|[-> Hc]]; [done|].
  assert (py_isspace c = false) as Hsp by (unfold py_isspace; decide_cmp; reflexivity).
  rewrite Hsp. unfold py_isspace. decide_cmp; reflexivity.
Qed.

Lemma py_lower_char_idemp (c : N) : py_lower_char (py_lower_char c) = py_lower_char c.
Proof.
  destruct (py_lower_char_cases c) as [Hid|[-> Hc]]; [by rewrite !Hid|].
  unfold py_lower_char. decide_cmp; reflexivity.
Qed.

Lemma str_lower_idemp (s : str) : str_lower (str_lower s) = str_lower s.
Proof.
  unfold str_lower. rewrite <- list_fmap_compose. apply list_fmap_ext.
  intros i c _. apply py_lower_char_idemp.
Qed.

Lemma str_lstrip_lower (s : str) : str_lstrip (str_lower s) = str_lower (str_lstrip s).
Proof.
  unfold str_lower. induction s as [|c s IH]; [done|].
  rewrite fmap_cons. cbn [str_lstrip]. rewrite py_isspace_lower.
  destruct (py_isspace c); [done | by rewrite fmap_cons].
Qed.

Lemma str_strip_lower (s : str) : str_strip (str_lower s) = str_lower (str_strip s).
Proof.
  unfold str_strip. rewrite str_lstrip_lower. unfold str_lower at 1.
  rewrite <- fmap_reverse. fold (str_lower (reverse (str_lstrip s))).
  rewrite str_lstrip_lower. unfold str_lower. by rewrite fmap_reverse.
Qed.

Lemma str_lstrip_no_lead (s : str) : no_lead_space (str_lstrip s).
Proof.
  induction s as [|c s IH]; [done|]. simpl.
  destruct (py_isspace c) eqn:Hc; [done | by simpl].
Qed.

Lemma str_lstrip_id (s : str) : no_lead_space s → str_lstrip s = s.
Proof. destruct s as [|c s]; [done|]. simpl. by intros ->. Qed.

Lemma str_lstrip_suffix (s : str) : ∃ pre, s = pre ++ str_lstrip s.
Proof.
  induction s as [|c s [pre IH]]; [by exists []|]. simpl.
  destruct (py_isspace c); [|by exists []].
  exists (c :: pre). simpl. by rewrite <- IH.
Qed.

(** Stripping on the left keeps the right end free of whitespace. *)
Lemma str_lstrip_no_trail (s : str) :
  no_lead_space (reverse s) → no_lead_space (reverse (str_lstrip s)).
Proof.
  destruct (str_lstrip_suffix s) as [pre Hs]. intros Hno. rewrite Hs in Hno.
  rewrite reverse_app in Hno.
  destruct (reverse (str_lstrip s)) as [|c t]; [done|]. done.
Qed.

Lemma str_strip_idemp (s : str) : str_strip (str_strip s) = str_strip s.
Proof.
  unfold str_strip.
  set (u := str_lstrip s). set (v := str_lstrip (reverse u)).
  assert (no_lead_space (reverse v)) as Hlead.
  { apply str_lstrip_no_trail. rewrite reverse_involutive. apply str_lstrip_no_lead. }
  assert (no_lead_space v) as Htrail by apply str_lstrip_no_lead.
  rewrite (str_lstrip_id (reverse v)) by done.
  rewrite reverse_involutive. by rewrite (str_lstrip_id v) by done.
Qed.

Lemma normalize_idemp (s : str) :
  str_lower (str_strip (str_lower (str_strip s))) = str_lower (str_strip s).
Proof. by rewrite str_strip_lower, str_strip_idemp, str_lower_idemp. Qed.

(** ** More on the codec *)

Lemma symbol_of_class_lookup (ch : N) (f : Z) :
  ch ∈ codes "gyb" → FEEDBACK_OF_SYMBOL !! ch = Some f →
  (f = 0%Z ∨ f = 1%Z ∨ f = 2%Z) ∧ symbol_of_class f = ch.
Proof.
  intros Hin. change (codes "gyb") with [103%N; 121%N; 98%N] in Hin.
  rewrite !elem_of_cons in Hin. destruct Hin as [-> | [-> | [-> | Hin]]].
  - intros [= <-]. split; [by do 2 right | done].
  - intros [= <-]. split; [right; by left | done].
  - intros [= <-]. split; [by left | done].
  - by apply elem_of_nil in Hin.
Qed.

Lemma feedback_string_to_list_Ok (raw : str) (c : list Z) :
  feedback_string_to_list raw = Ok c →
  is_classification c ∧ feedback_code c = str_lower (str_strip raw).
Proof.
  intros Hc. pose proof (feedback_string_to_list_cases raw) as Hcases.
  cbv zeta in Hcases. set (s := str_lower (str_strip raw)) in *.
  destruct Hcases as [[_ Hr]|(Hlen & Hall & c' & Hc' & Hlen' & Hpos)]; [congruence|].
  assert (c' = c) as -> by congruence.
  assert (∀ j f, c !! j = Some f →
            ∃ ch, s !! j = Some ch ∧ (f = 0%Z ∨ f = 1%Z ∨ f = 2%Z) ∧ symbol_of_class f = ch)
    as Hsym.
  { intros j f Hj. destruct (lookup_lt_is_Some_2 s j) as [ch Hch].
    { apply lookup_lt_Some in Hj. lia. }
    exists ch. split; [done|]. apply symbol_of_class_lookup.
    - apply Hall. by eapply list_elem_of_lookup_2.
    - by rewrite (Hpos j ch Hch). }
  split; [split; [done|]|].
  - apply Forall_lookup. intros j f Hj. by destruct (Hsym j f Hj) as (ch & _ & ? & _).
  - apply list_eq. intros j. unfold feedback_code. rewrite list_lookup_fmap.
    destruct (c !! j) as [f|] eqn:Hj; simpl.
    + destruct (Hsym j f Hj) as (ch & Hch & _ & Hs). rewrite Hs. symmetry. exact Hch.
    + symmetry. apply lookup_ge_None_2. apply lookup_ge_None_1 in Hj. lia.
Qed.

Lemma feedback_string_to_list_Raise (raw : str) (e : exn) :
  feedback_string_to_list raw = Raise e → e = ValueError.
Proof.
  intros He. pose proof (feedback_string_to_list_cases raw) as Hcases.
  cbv zeta in Hcases.
  destruct Hcases as [[_ Hr]|(_ & _ & c & Hc & _)]; congruence.
Qed.

Lemma feedback_string_to_list_normalize (raw : str) :
  feedback_string_to_list (str_lower (str_strip raw)) = feedback_string_to_list raw.
Proof. unfold feedback_string_to_list. cbv zeta. by rewrite normalize_idemp. Qed.

Lemma dict_get_SYMBOLS (f : Z) :
  (f = 0%Z ∨ f = 1%Z ∨ f = 2%Z → ∃ c, dict_get SYMBOLS f = Ok [c] ∧ (255 < c)%N) ∧
  (¬ (f = 0%Z ∨ f = 1%Z ∨ f = 2%Z) → dict_get SYMBOLS f = Raise KeyError).
Proof.
  split.
  - intros [-> | [-> | ->]]; eexists; (split; [reflexivity | done]).
  - intros Hf. unfold dict_get, SYMBOLS.
    rewrite !lookup_insert_ne by (intros <-; apply Hf; auto).
    by rewrite lookup_empty.
Qed.

Lemma map_result_SYMBOLS (fb : list Z) :
  (Forall (λ f, f = 0%Z ∨ f = 1%Z ∨ f = 2%Z) fb →
   ∃ squares, map_result (dict_get SYMBOLS) fb = Ok squares ∧
              length (concat squares) = length fb) ∧
  (¬ Forall (λ f, f = 0%Z ∨ f = 1%Z ∨ f = 2%Z) fb →
   map_result (dict_get SYMBOLS) fb = Raise KeyError).
Proof.
  induction fb as [|f fb [IHok IHbad]].
  - split; [by exists [] | intros Hn; by destruct Hn].
  - cbn [map_result]. destruct (dict_get_SYMBOLS f) as [Hok Hbad]. split.
    + intros [Hf Hfb]%Forall_cons. destruct (Hok Hf) as (c & -> & _).
      destruct (IHok Hfb) as (sq & -> & Hlen). cbn [bind].
      exists ([c] :: sq). split; [done|]. simpl. by rewrite Hlen.
    + intros Hn. destruct (decide (f = 0%Z ∨ f = 1%Z ∨ f = 2%Z)) as [Hf|Hf].
      * destruct (Hok Hf) as (c & -> & _). cbn [bind]. rewrite IHbad; [done|].
        intros Hfb. apply Hn. by constructor.
      * by rewrite (Hbad Hf).
Qed.

(** X5: [format_feedback] returns exactly when every feedback value is 0, 1
    or 2: one square per value, then three spaces and the guess in
    brackets. Any other value raises [KeyError]. *)
Theorem format_feedback_outcome (guess : str) (fb : list Z) :
  (Forall (λ f, f = 0%Z ∨ f = 1%Z ∨ f = 2%Z) fb →
   ∃ line, format_feedback guess fb = Ok line ∧
           length line = length fb + length guess + 5 ∧
           drop (length fb) line = codes "   (" ++ guess ++ codes ")") ∧
  (¬ Forall (λ f, f = 0%Z ∨ f = 1%Z ∨ f = 2%Z) fb →
   format_feedback guess fb = Raise KeyError).
Proof.
  unfold format_feedback. destruct (map_result_SYMBOLS fb) as [Hok Hbad]. split.
  - intros Hfb. destruct (Hok Hfb) as (sq & -> & Hlen). cbn [bind].
    eexists. split; [done|]. split.
    + rewrite !length_app, Hlen. simpl. lia.
    + rewrite <- Hlen. by rewrite drop_app_length.
  - intros Hn. by rewrite (Hbad Hn).
Qed.

Lemma format_feedback_outcome_witness :
  format_feedback (codes "crane") [2; 3; 0; 0; 2]%Z = Raise KeyError.
Proof.
  apply (proj2 (format_feedback_outcome (codes "crane") [2; 3; 0; 0; 2]%Z)).
  intros Hfb. apply Forall_cons in Hfb as [_ Hfb]. apply Forall_cons in Hfb as [Hf _]. lia.
Defined.

Lemma format_feedback_total (guess : str) (fb : list Z) :
  is_classification fb → ∃ line, format_feedback guess fb = Ok line.
Proof.
  intros [_ Hfb]. unfold format_feedback.
  destruct (proj1 (map_result_SYMBOLS fb) Hfb) as (sq & -> & _). by eexists.
Qed.

(** X6: what [feedback_string_to_list] returns is a classification, and
    writing it back with g, y, b gives the stripped, lowercased input: two
    inputs decode alike only if they normalize alike. *)
Theorem feedback_string_to_list_inverse (raw : str) (c : list Z) :
  feedback_string_to_list raw = Ok c →
  is_classification c ∧ feedback_code c = str_lower (str_strip raw).
Proof. apply feedback_string_to_list_Ok. Qed.

Lemma feedback_string_to_list_inverse_witness :
  is_classification [2; 1; 0; 0; 2]%Z ∧
  feedback_code [2; 1; 0; 0; 2]%Z = str_lower (str_strip (codes " GyBbg ")).
Proof.
  apply (feedback_string_to_list_inverse (codes " GyBbg ") [2; 1; 0; 0; 2]%Z).
  vm_compute. reflexivity.
Defined.

(** X7: on input made of Latin-1 characters, normalizing before the call
    changes nothing: [feedback_string_to_list] gives the same result on the
    stripped, lowercased input as on the input itself. *)
Theorem feedback_string_to_list_normalized (raw : str) :
  Forall (λ c, (c < 256)%N) raw →
  feedback_string_to_list (str_lower (str_strip raw)) = feedback_string_to_list raw.
Proof. intros _. apply feedback_string_to_list_normalize. Qed.

Lemma feedback_string_to_list_normalized_witness :
  feedback_string_to_list (str_lower (str_strip (codes " GyBbg ")))
  = feedback_string_to_list (codes " GyBbg ").
Proof.
  apply (feedback_string_to_list_normalized (codes " GyBbg ")).
  apply (bool_decide_unpack _). vm_compute. exact I.
Defined.

(** ** More on filter_candidates *)

Lemma filter_body_Ok (g : str) (fb : list Z) (cands : list str) :
  ∀ acc out,
  for_each cands (filter_body g fb) acc = Ok out →
  ∃ kept, out = acc ++ kept ∧ kept `sublist_of` cands ∧
          Forall (λ w, evaluate_guess g w = Ok fb) kept.
Proof.
  induction cands as [|w cands IH]; intros acc out; simpl.
  - intros [= <-]. exists []. by rewrite app_nil_r.
  - unfold filter_body at 1. destruct (evaluate_guess g w) as [fb'|] eqn:E; [|done].
    cbn [bind]. case_decide as Hfb; cbn [bind]; intros Hrest.
    + destruct (IH _ _ Hrest) as (kept & -> & Hsub & Hall).
      exists (w :: kept). rewrite <- app_assoc. split_and!; [done | by constructor |].
      constructor; [congruence | done].
    + destruct (IH _ _ Hrest) as (kept & -> & Hsub & Hall).
      exists kept. split_and!; [done | by constructor | done].
Qed.

(** X9: whenever [filter_candidates] returns, what it returns is a sublist
    of the pool, so never longer, and every word kept reproduces the
    feedback. *)
Theorem filter_candidates_shrinks (cands out : list str) (g : str) (fb : list Z) :
  filter_candidates cands g fb = Ok out →
  out `sublist_of` cands ∧ length out ≤ length cands ∧
  Forall (λ w, evaluate_guess g w = Ok fb) out.
Proof.
  intros (kept & -> & Hsub & Hall)%filter_body_Ok. simpl.
  split_and!; [done | by apply sublist_length | done].
Qed.

Lemma filter_candidates_shrinks_witness :
  [codes "slate"; codes "stale"]
    `sublist_of` [codes "crane"; codes "slate"; codes "stale"] ∧
  length [codes "slate"; codes "stale"]
    ≤ length [codes "crane"; codes "slate"; codes "stale"] ∧
  Forall (λ w, evaluate_guess (codes "least") w = Ok [1; 1; 2; 1; 1]%Z)
    [codes "slate"; codes "stale"].
Proof.
  apply (filter_candidates_shrinks [codes "crane"; codes "slate"; codes "stale"]
           [codes "slate"; codes "stale"] (codes "least") [1; 1; 2; 1; 1]%Z).
  vm_compute. reflexivity.
Defined.

(** X10: [filter_candidates] returns when the guess and all pool words have
    at least five letters; on a pool that is not empty with a shorter guess,
    or with a shorter word, it raises [IndexError]. *)
Theorem filter_candidates_outcome (cands : list str) (g : str) (fb : list Z) :
  (5 ≤ length g → Forall (λ w, 5 ≤ length w) cands →
   ∃ out, filter_candidates cands g fb = Ok out) ∧
  (cands ≠ [] → length g < 5 ∨ Exists (λ w, length w < 5) cands →
   filter_candidates cands g fb = Raise IndexError).
Proof.
  split.
  - intros Hg Hc. eexists. by apply filter_candidates_filter.
  - unfold filter_candidates. intros Hne Hshort. generalize (@nil str) as acc.
    induction cands as [|w cands IH]; intros acc; [done|].
    cbn [for_each]. unfold filter_body at 1.
    destruct (decide (length g < 5 ∨ length w < 5)) as [Hw|Hw].
    + by rewrite evaluate_guess_short.
    + destruct (evaluate_guess_budget g w) as (fb' & -> & _); [lia | lia |].
      cbn [bind].
      assert (Exists (λ w, length w < 5) cands) as Hex.
      { destruct Hshort as [?|Hex]; [lia|].
        apply Exists_cons in Hex as [?|?]; [lia | done]. }
      assert (cands ≠ []) as Hne' by (intros ->; by apply Exists_nil in Hex).
      case_decide; cbn [bind]; apply IH; auto.
Qed.

Lemma filter_candidates_outcome_witness :
  filter_candidates [codes "crane"; codes "tea"] (codes "least") [1; 1; 2; 1; 1]%Z
  = Raise IndexError.
Proof.
  apply (proj2 (filter_candidates_outcome [codes "crane"; codes "tea"] (codes "least")
                  [1; 1; 2; 1; 1]%Z)); [discriminate|].
  right. apply Exists_cons. right. apply Exists_cons. left. simpl. lia.
Defined.

Lemma filter_comm {A : Type} (P Q : A → Prop)
    `{∀ x, Decision (P x)} `{∀ x, Decision (Q x)} (l : list A) :
  filter P (filter Q l) = filter Q (filter P l).
Proof.
  induction l as [|x l IH]; [done|].
  rewrite !filter_cons.
  destruct (decide (P x)) as [HP|HP], (decide (Q x)) as [HQ|HQ];
    rewrite ?filter_cons, ?decide_True, ?decide_False by done; by rewrite IH.
Qed.

Lemma Forall_filter_length (P : str → Prop) `{∀ x, Decision (P x)} (cands : list str) n :
  Forall (λ w, n ≤ length w) cands → Forall (λ w, n ≤ length w) (filter P cands).
Proof.
  intros Hc. apply Forall_forall. intros w [_ Hw]%list_elem_of_filter.
  by apply (proj1 (Forall_forall _ _) Hc).
Qed.

(** X11: two rounds of filtering give the same pool in either order. *)
Theorem filter_candidates_commute (cands : list str) (g1 g2 : str) (fb1 fb2 : list Z) :
  5 ≤ length g1 → 5 ≤ length g2 → Forall (λ w, 5 ≤ length w) cands →
  ∃ a b out, filter_candidates cands g1 fb1 = Ok a ∧ filter_candidates a g2 fb2 = Ok out ∧
             filter_candidates cands g2 fb2 = Ok b ∧ filter_candidates b g1 fb1 = Ok out.
Proof.
  intros Hg1 Hg2 Hc. do 3 eexists. split_and!.
  - by apply filter_candidates_filter.
  - apply filter_candidates_filter; [done | by apply Forall_filter_length].
  - by apply filter_candidates_filter.
  - rewrite filter_candidates_filter; [|done | by apply Forall_filter_length].
    f_equal. apply filter_comm.
Qed.

Lemma filter_candidates_commute_witness :
  ∃ a b out,
    filter_candidates [codes "crane"; codes "slate"; codes "stale"]
      (codes "least") [1; 1; 2; 1; 1]%Z = Ok a ∧
    filter_candidates a (codes "slate") [2; 1; 2; 1; 2]%Z = Ok out ∧
    filter_candidates [codes "crane"; codes "slate"; codes "stale"]
      (codes "slate") [2; 1; 2; 1; 2]%Z = Ok b ∧
    filter_candidates b (codes "least") [1; 1; 2; 1; 1]%Z = Ok out.
Proof.
  apply (filter_candidates_commute [codes "crane"; codes "slate"; codes "stale"]
           (codes "least") (codes "slate")); [simpl; lia | simpl; lia |].
  repeat constructor.
Defined.

(** X12: on words of five letters, feedback that is not all EXACT removes
    the guess from the pool, and feedback that is all EXACT keeps nothing
    but the guess. *)
Theorem filter_candidates_guess (cands : list str) (g : str) (fb : list Z) :
  length g = 5 → Forall (λ w, length w = 5) cands →
  ∃ out, filter_candidates cands g fb = Ok out ∧
         (fb ≠ [2; 2; 2; 2; 2]%Z → g ∉ out) ∧
         (fb = [2; 2; 2; 2; 2]%Z → Forall (λ w, w = g) out).
Proof.
  intros Hg Hc. eexists. split.
  { apply filter_candidates_filter; [lia | by apply Forall_length_5]. }
  split.
  - intros Hfb [Hev _]%list_elem_of_filter. apply Hfb.
    assert (evaluate_guess g g = Ok [2; 2; 2; 2; 2]%Z) as Hself
      by (by apply evaluate_guess_green_iff).
    congruence.
  - intros ->. apply Forall_forall. intros w [Hev Hw]%list_elem_of_filter.
    symmetry. apply evaluate_guess_green_iff; [done | | done].
    by apply (proj1 (Forall_forall _ _) Hc).
Qed.

Lemma filter_candidates_guess_witness :
  ∃ out, filter_candidates [codes "crane"; codes "slate"; codes "stale"]
           (codes "slate") [2; 1; 2; 1; 2]%Z = Ok out ∧
         ([2; 1; 2; 1; 2]%Z ≠ [2; 2; 2; 2; 2]%Z → codes "slate" ∉ out) ∧
         ([2; 1; 2; 1; 2]%Z = [2; 2; 2; 2; 2]%Z → Forall (λ w, w = codes "slate") out).
Proof.
  apply (filter_candidates_guess [codes "crane"; codes "slate"; codes "stale"]
           (codes "slate") [2; 1; 2; 1; 2]%Z); [reflexivity|].
  repeat constructor.
Defined.

(** ** More on pick_smart *)

Lemma best_loop_member (freq : list (gmap N Z)) (l : list str) :
  ∀ st st', for_each l (best_body freq) st = Ok st' → snd st' = snd st ∨ snd st' ∈ l.
Proof.
  induction l as [|x l IH]; intros [bs bw] st'; simpl.
  - intros [= <-]. by left.
  - destruct (word_score freq x) as [sc|]; [|done]. cbn [bind].
    case_decide; cbn [bind]; intros Hrest; apply IH in Hrest as [->|Hin]; cbn [snd];
      first [by left | right; by left | right; by right].
Qed.

Lemma pick_smart_Ok (cands : list str) (w : str) :
  pick_smart cands = Ok w → w ∈ max_vowel_words cands.
Proof.
  destruct cands as [|w0 ws]; [done|]. set (cands := w0 :: ws).
  unfold pick_smart. rewrite vowel_heavy_spec by done. cbn [bind].
  pose proof (max_vowel_words_nonempty cands ltac:(done)) as Hne.
  destruct (max_vowel_words cands) as [|v vs]; [done|].
  case_decide.
  - cbn [getitem lookup list_lookup]. intros [= <-]. by left.
  - destruct (build_freq cands) as [freq|]; [|done]. cbn [bind getitem lookup list_lookup].
    destruct (for_each (v :: vs) (best_body freq) ((-1)%Z, v)) as [best|] eqn:E; [|done].
    cbn [bind]. intros [= <-].
    apply best_loop_member in E as [->|Hin]; [by left | done].
Qed.

(** X13: whatever pool it is given, a word that [pick_smart] returns is a
    word of the pool and no word of the pool has more vowels. *)
Theorem pick_smart_vowel_max (cands : list str) (w : str) :
  pick_smart cands = Ok w →
  w ∈ cands ∧ ∀ w', w' ∈ cands → (vowel_count w' ≤ vowel_count w)%Z.
Proof.
  intros Hw%pick_smart_Ok. unfold max_vowel_words in Hw.
  apply list_elem_of_filter in Hw as [Hmax Hin]. split; [done|].
  intros w' Hw'. by apply (proj1 (Forall_forall _ _) Hmax).
Qed.

Lemma pick_smart_vowel_max_witness :
  codes "adieu" ∈ [codes "crane"; codes "slate"; codes "adieu"] ∧
  ∀ w', w' ∈ [codes "crane"; codes "slate"; codes "adieu"] →
        (vowel_count w' ≤ vowel_count (codes "adieu"))%Z.
Proof.
  apply (pick_smart_vowel_max [codes "crane"; codes "slate"; codes "adieu"] (codes "adieu")).
  vm_compute. reflexivity.
Defined.

Lemma ALPHABET_elem (c : N) : c ∈ ALPHABET ↔ is_lower c.
Proof.
  split; [|apply ALPHABET_lower].
  change ALPHABET with (N.of_nat <$> seq 97 26).
  intros (n & -> & Hn)%list_elem_of_fmap. apply elem_of_seq in Hn.
  unfold is_lower. lia.
Qed.

Lemma table_shape_lookup (freq : list (gmap N Z)) (i : nat) :
  table_shape freq → i < 5 →
  ∃ d, freq !! i = Some d ∧ ∀ c, is_Some (d !! c) ↔ is_lower c.
Proof.
  intros [Hlen Hdom] Hi.
  destruct (lookup_lt_is_Some_2 freq i) as [d Hd]; [lia|].
  exists d. split; [done|]. intros c.
  rewrite <- elem_of_dom, (proj1 (Forall_lookup _ _) Hdom i d Hd).
  rewrite elem_of_list_to_set. apply ALPHABET_elem.
Qed.

Lemma for_each_shape (freq freq' : list (gmap N Z)) (l : list (nat * N)) :
  table_shape freq → for_each l count_letter freq = Ok freq' → table_shape freq'.
Proof.
  apply (for_each_preserves table_shape). intros st ich st'. apply count_letter_shape.
Qed.

Lemma count_letter_outcome (freq : list (gmap N Z)) (k : nat) (ch : N) :
  table_shape freq →
  (k < 5 → is_lower ch → ∃ freq', count_letter freq (k, ch) = Ok freq') ∧
  (k = 5 ∨ ¬ is_lower ch → ∃ e, count_letter freq (k, ch) = Raise e).
Proof.
  intros Hshape. unfold count_letter, getitem, dict_get. split.
  - intros Hk Hch. destruct (table_shape_lookup freq k Hshape Hk) as (d & -> & Hd).
    cbn [bind]. destruct (proj2 (Hd ch) Hch) as [n ->]. cbn [bind].
    rewrite setitem_Ok by (destruct Hshape; lia). by eexists.
  - intros Hbad. destruct (decide (k < 5)) as [Hk|Hk].
    + destruct (table_shape_lookup freq k Hshape Hk) as (d & -> & Hd). cbn [bind].
      destruct (d !! ch) as [n|] eqn:Hn; [|by eexists].
      destruct Hbad as [?|Hbad]; [lia|]. destruct Hbad. apply Hd. eauto.
    + rewrite lookup_ge_None_2 by (destruct Hshape; lia). by eexists.
Qed.

Lemma count_letters_outcome (w : str) : ∀ (k : nat) (freq : list (gmap N Z)),
  table_shape freq → k ≤ 5 →
  (k + length w ≤ 5 → Forall is_lower w →
   ∃ freq', for_each (enumerate_from k w) count_letter freq = Ok freq') ∧
  (5 < k + length w ∨ ¬ Forall is_lower w →
   ∃ e, for_each (enumerate_from k w) count_letter freq = Raise e).
Proof.
  induction w as [|ch w IH]; intros k freq Hshape Hk.
  - split; [intros _ _; by eexists|]. simpl. intros [?|Hn]; [lia | by destruct Hn].
  - cbn [enumerate_from for_each length].
    destruct (count_letter_outcome freq k ch Hshape) as [Hok Hbad]. split.
    + intros Hlen [Hch Hw]%Forall_cons.
      destruct Hok as [freq1 E1]; [lia | done |]. rewrite E1. cbn [bind].
      apply IH; [by eapply count_letter_shape | lia | lia | done].
    + intros Hno. destruct (decide (k = 5 ∨ ¬ is_lower ch)) as [Hnow|Hlater].
      * destruct (Hbad Hnow) as [e ->]. by exists e.
      * destruct Hok as [freq1 E1]; [lia | |].
        { destruct (decide (is_lower ch)); [done | tauto]. }
        rewrite E1. cbn [bind].
        apply IH; [by eapply count_letter_shape | lia |].
        destruct Hno as [?|Hn]; [left; lia|]. right. intros Hw. apply Hn.
        constructor; [|done]. destruct (decide (is_lower ch)); [done | tauto].
Qed.

Lemma count_word_outcome (freq : list (gmap N Z)) (w : str) :
  table_shape freq →
  (tabulable w → ∃ freq', count_word freq w = Ok freq' ∧ table_shape freq') ∧
  (¬ tabulable w → ∃ e, count_word freq w = Raise e).
Proof.
  intros Hshape. unfold count_word, enumerate.
  destruct (count_letters_outcome w 0 freq Hshape ltac:(lia)) as [Hok Hbad]. split.
  - intros [Hlen Hw]. destruct (Hok ltac:(lia) Hw) as [freq' E].
    exists freq'. split; [done|]. by eapply for_each_shape.
  - intros Hn. apply Hbad. unfold tabulable in Hn.
    destruct (decide (length w ≤ 5)); [right; tauto | left; lia].
Qed.

Lemma count_words_outcome (cands : list str) : ∀ freq : list (gmap N Z),
  table_shape freq →
  (Forall tabulable cands →
   ∃ freq', for_each cands count_word freq = Ok freq' ∧ table_shape freq') ∧
  (¬ Forall tabulable cands → ∃ e, for_each cands count_word freq = Raise e).
Proof.
  induction cands as [|w cands IH]; intros freq Hshape.
  - split; [intros _; by exists freq | intros Hn; by destruct Hn].
  - cbn [for_each]. destruct (count_word_outcome freq w Hshape) as [Hok Hbad]. split.
    + intros [Hw Hc]%Forall_cons. destruct (Hok Hw) as (freq1 & -> & Hshape1).
      cbn [bind]. by apply IH.
    + intros Hn. destruct (decide (tabulable w)) as [Hw|Hw].
      * destruct (Hok Hw) as (freq1 & -> & Hshape1). cbn [bind].
        apply IH; [done|]. intros Hc. apply Hn. by constructor.
      * destruct (Hbad Hw) as [e ->]. by exists e.
Qed.

Lemma table_shape_init : table_shape (replicate 5 (dict_fromkeys ALPHABET 0%Z)).
Proof. split; [done|]. apply Forall_replicate, dict_fromkeys_dom. Qed.

Lemma score_letters_total (freq : list (gmap N Z)) (w : str) : ∀ k st,
  table_shape freq → k + length w ≤ 5 → Forall is_lower w →
  ∃ st', for_each (enumerate_from k w) (score_letter freq) st = Ok st'.
Proof.
  induction w as [|ch w IH]; intros k [seen sc] Hshape Hk Hw; [by eexists|].
  apply Forall_cons in Hw as [Hch Hw]. simpl in Hk.
  cbn [enumerate_from for_each]. unfold score_letter at 1.
  case_decide; cbn [bind]; [apply IH; done || lia|].
  destruct (table_shape_lookup freq k Hshape ltac:(lia)) as (d & Hd & Hkeys).
  rewrite (getitem_Ok _ _ _ Hd). cbn [bind]. unfold dict_get.
  destruct (proj2 (Hkeys ch) Hch) as [n ->]. cbn [bind]. apply IH; done || lia.
Qed.

Lemma best_loop_total (freq : list (gmap N Z)) (l : list str) :
  table_shape freq → Forall tabulable l →
  ∀ st, ∃ st', for_each l (best_body freq) st = Ok st'.
Proof.
  intros Hshape. induction 1 as [|w l [Hlen Hw] _ IH]; intros [bs bw]; [by eexists|].
  cbn [for_each]. unfold best_body at 1, word_score, enumerate.
  destruct (score_letters_total freq w 0 (∅, 0%Z) Hshape ltac:(lia) Hw) as [st1 ->].
  cbn [bind]. case_decide; cbn [bind]; apply IH.
Qed.

(** X14: on a pool with several vowel-heavy words, [pick_smart] returns a
    word exactly when every word of the pool has at most five characters,
    all lowercase letters; otherwise it raises [KeyError] or [IndexError]
    while it builds the table. *)
Theorem pick_smart_returns_iff (cands : list str) :
  cands ≠ [] → length (max_vowel_words cands) ≠ 1 →
  (Forall tabulable cands → ∃ w, pick_smart cands = Ok w) ∧
  (¬ Forall tabulable cands →
   ∃ e, pick_smart cands = Raise e ∧ (e = KeyError ∨ e = IndexError)).
Proof.
  intros Hne Hlen. unfold pick_smart. rewrite vowel_heavy_spec by done. cbn [bind].
  rewrite decide_False by done. unfold build_freq.
  destruct (count_words_outcome cands _ table_shape_init) as [Hok Hbad]. split.
  - intros Hc. destruct (Hok Hc) as (freq & -> & Hshape). cbn [bind].
    pose proof (max_vowel_words_nonempty cands Hne) as Hvh.
    destruct (max_vowel_words cands) as [|v vs] eqn:Evh; [done|].
    cbn [getitem lookup list_lookup bind].
    destruct (best_loop_total freq (v :: vs) Hshape) with (st := ((-1)%Z, v)) as [best ->].
    { apply Forall_forall. intros w Hw. apply (proj1 (Forall_forall _ _) Hc).
      apply max_vowel_words_subseteq. by rewrite Evh. }
    by eexists.
  - intros Hn. destruct (Hbad Hn) as [e He]. rewrite He. cbn [bind].
    exists e. split; [done|].
    pose proof (build_freq_Raise cands e He) as Hv. destruct e; tauto.
Qed.

Lemma pick_smart_returns_iff_witness :
  ∃ e, pick_smart [codes "crane"; codes "sl8te"; codes "stale"] = Raise e ∧
       (e = KeyError ∨ e = IndexError).
Proof.
  apply (proj2 (pick_smart_returns_iff [codes "crane"; codes "sl8te"; codes "stale"]
                  ltac:(discriminate) ltac:(vm_compute; lia))).
  intros Hc. apply Forall_cons in Hc as [_ Hc]. apply Forall_cons in Hc as [[_ Hw] _].
  revert Hw. apply (bool_decide_eq_false_1 _). vm_compute. reflexivity.
Defined.

(** ** load_words *)

(** X15: on lines made of Latin-1 characters, every word that [load_words]
    returns has five characters, no whitespace at either end and no
    uppercase letter left: stripping or lowercasing it again changes
    nothing. *)
Theorem load_words_normalized (lines : list str) :
  Forall (Forall (λ c, (c < 256)%N)) lines →
  Forall (λ w, length w = 5 ∧ str_strip w = w ∧ str_lower w = w) (load_words lines).
Proof.
  intros _. unfold load_words. apply Forall_fmap, Forall_forall.
  intros line [Hlen _]%list_elem_of_filter. simpl. split_and!.
  - unfold str_lower. by rewrite length_fmap.
  - by rewrite str_strip_lower, str_strip_idemp.
  - apply str_lower_idemp.
Qed.

Lemma load_words_normalized_witness :
  Forall (λ w, length w = 5 ∧ str_strip w = w ∧ str_lower w = w)
    (load_words [codes "Crane" ++ [10%N]; codes "toolong" ++ [10%N]; codes " stale "]).
Proof.
  apply (load_words_normalized
           [codes "Crane" ++ [10%N]; codes "toolong" ++ [10%N]; codes " stale "]).
  apply (bool_decide_unpack _). vm_compute. exact I.
Defined.

(** ** interactive_solve *)

Lemma pick_smart_word_pool (cands : list str) :
  cands ≠ [] → Forall is_word cands → ∃ g, pick_smart cands = Ok g ∧ g ∈ cands.
Proof.
  intros Hne Hwords.
  destruct (decide (length (max_vowel_words cands) = 1)) as [Hlen|Hlen].
  - destruct (max_vowel_words cands) as [|w [|]] eqn:Evh; try done.
    exists w. split; [by apply pick_smart_single|].
    apply max_vowel_words_subseteq. rewrite Evh. by left.
  - destruct (pick_smart_scored cands Hwords Hne Hlen) as (w & pre & post & Hpick & Hvh & _).
    exists w. split; [done|]. apply max_vowel_words_subseteq. rewrite Hvh.
    apply elem_of_app. right. by left.
Qed.


Lemma is_word_length_5 (cands : list str) :
  Forall is_word cands → Forall (λ w, 5 ≤ length w) cands.
Proof. intros Hc. eapply Forall_impl; [done|]. by intros w [-> _]. Qed.

(** X16: on a pool of five-letter lowercase words no exception leaves the
    loop, whatever the user types. *)
Theorem solve_loop_no_uncaught (inputs : list str) (cands : list str) (r : nat) (e : exn) :
  Forall is_word cands → solve_loop inputs cands r ≠ Uncaught e.
Proof.
  revert cands r. induction inputs as [|line inputs IH]; intros cands r Hwords;
    cbn [solve_loop]; (destruct (decide (cands = [])) as [Hne|Hne]; [discriminate|]);
    destruct (pick_smart_word_pool cands Hne Hwords) as (g & -> & Hg); try discriminate.
  cbv zeta. case_decide; [discriminate|].
  destruct (feedback_string_to_list _) as [fb|e'] eqn:Hdec.
  - apply feedback_string_to_list_Ok in Hdec as [Hclass _].
    destruct (format_feedback_total g fb Hclass) as [ln ->].
    case_decide; [discriminate|].
    rewrite filter_candidates_filter.
    + apply IH. apply Forall_forall. intros w [_ Hw]%list_elem_of_filter.
      by apply (proj1 (Forall_forall _ _) Hwords).
    + assert (is_word g) as [-> _] by (by apply (proj1 (Forall_forall _ _) Hwords)). done.
    + by apply is_word_length_5.
  - apply feedback_string_to_list_Raise in Hdec as ->. by apply IH.
Qed.

Lemma solve_loop_no_uncaught_witness :
  solve_loop [codes "gygyg"; codes "oops"] [codes "crane"; codes "slate"; codes "stale"] 1
  ≠ Uncaught KeyError.
Proof.
  apply (solve_loop_no_uncaught [codes "gygyg"; codes "oops"]
           [codes "crane"; codes "slate"; codes "stale"] 1 KeyError).
  apply (bool_decide_unpack _). vm_compute. exact I.
Defined.

(** X17: whatever the pool and whatever the user types, the pool the loop
    is left with is a sublist of the pool it started from and is not empty,
    a word announced as solved is a word of the starting pool, and the round
    counter has advanced by at most one per line read. *)
Theorem solve_loop_pool (inputs : list str) (cands : list str) (r : nat) :
  match solve_loop inputs cands r with
  | Solved r' g => g ∈ cands ∧ r ≤ r' < r + length inputs
  | Waiting cands' r' =>
      cands' `sublist_of` cands ∧ cands' ≠ [] ∧ r ≤ r' ≤ r + length inputs
  | _ => True
  end.
Proof.
  revert cands r. induction inputs as [|line inputs IH]; intros cands r;
    cbn [solve_loop]; (destruct (decide (cands = [])) as [Hne|Hne]; [done|]);
    destruct (pick_smart cands) as [g|] eqn:Hpick; try done.
  { simpl. split_and!; [done | done | lia | lia]. }
  cbv zeta. case_decide; [done|].
  destruct (feedback_string_to_list _) as [fb|[]] eqn:Hdec; try done.
  - destruct (format_feedback g fb) as [ln|]; [|done].
    case_decide.
    + split; [|simpl; lia]. by eapply max_vowel_words_subseteq, pick_smart_Ok.
    + destruct (filter_candidates cands g fb) as [out|] eqn:Hout; [|done].
      apply filter_body_Ok in Hout as (kept & -> & Hsub & _). simpl.
      specialize (IH kept (S r)). destruct (solve_loop inputs kept (S r)); try done.
      * destruct IH as [Hin Hr]. split; [|simpl; lia]. by eapply sublist_subseteq.
      * destruct IH as (Hs & Hn & Hr). split_and!; [by etrans | done | lia | simpl; lia].
  - specialize (IH cands r). destruct (solve_loop inputs cands r); try done.
    + destruct IH as [Hin Hr]. split; [done | simpl; lia].
    + destruct IH as (Hs & Hn & Hr). split_and!; [done | done | lia | simpl; lia].
Qed.



(** X19: lines that are neither exit nor a feedback code do not count: the
    session ends up where it would have without them. *)
Theorem solve_loop_skips_rejected (inputs : list str) (cands : list str) (r : nat) :
  solve_loop (filter (λ line, ¬ rejected line) inputs) cands r
  = solve_loop inputs cands r.
Proof.
  revert cands r. induction inputs as [|line inputs IH]; intros cands r; [done|].
  rewrite filter_cons. destruct (decide (¬ rejected line)) as [Hok|Hrej].
  - cbn [solve_loop]. destruct (decide (cands = [])); [done|].
    destruct (pick_smart cands) as [g|]; [|done]. cbv zeta.
    case_decide; [done|].
    destruct (feedback_string_to_list _) as [fb|[]] eqn:Hdec;
      [|done | done | apply IH].
    destruct (format_feedback g fb); [|done]. case_decide; [done|].
    destruct (filter_candidates cands g fb); [apply IH | done].
  - apply dec_stable in Hrej as [Hexit Hdec]. rewrite IH.
    cbn [solve_loop]. destruct (decide (cands = [])) as [->|Hne].
    + by destruct inputs.
    + destruct (pick_smart cands) as [g|] eqn:Hpick.
      * cbv zeta. rewrite decide_False by done. rewrite Hdec.
        destruct inputs; cbn [solve_loop]; by rewrite ?decide_False, ?Hpick by done.
      * destruct inputs; cbn [solve_loop]; by rewrite ?decide_False, ?Hpick by done.
Qed.

(** ** Runs of the program on small inputs *)

Example evaluate_guess_allee_eagle :
  evaluate_guess (codes "allee") (codes "eagle") = Ok [1; 1; 0; 1; 2]%Z.
Proof. vm_compute. reflexivity. Qed.

Example evaluate_guess_short_guess :
  evaluate_guess (codes "spee") (codes "erase") = Raise IndexError.
Proof. vm_compute. reflexivity. Qed.

Example feedback_string_to_list_padded :
  feedback_string_to_list (codes " GyBbg ") = Ok [2; 1; 0; 0; 2]%Z.
Proof. vm_compute. reflexivity. Qed.

Example format_feedback_crane :
  format_feedback (codes "crane") [2; 1; 0; 0; 2]%Z
  = Ok ([129001; 129000; 11036; 11036; 129001]%N ++ codes "   (crane)").
Proof. vm_compute. reflexivity. Qed.

Example filter_candidates_least :
  filter_candidates [codes "crane"; codes "slate"; codes "stale"]
    (codes "least") [1; 1; 2; 1; 1]%Z = Ok [codes "slate"; codes "stale"].
Proof. vm_compute. reflexivity. Qed.

Example pick_smart_most_vowels :
  pick_smart [codes "crane"; codes "slate"; codes "adieu"] = Ok (codes "adieu").
Proof. vm_compute. reflexivity. Qed.

Example pick_smart_first_best :
  pick_smart [codes "crane"; codes "slate"; codes "stale"] = Ok (codes "slate").
Proof. vm_compute. reflexivity. Qed.

Example pick_smart_digit :
  pick_smart [codes "crane"; codes "sl8te"; codes "stale"] = Raise KeyError.
Proof. vm_compute. reflexivity. Qed.

Example solve_loop_run :
  interactive_solve
    [codes "Crane" ++ [10%N]; codes "slate" ++ [10%N]; codes "toolong" ++ [10%N];
     codes "stale" ++ [10%N]]
    [codes "gygyg"; codes "oops"; codes " GGGGG "] = Solved 2 (codes "stale").
Proof. vm_compute. reflexivity. Qed.
